(** * Evolutionary Strategies notebook: a shallow embedding over the reals

    The notebook [notebooks/Evolutionary Strategies.ipynb] holds a handful of
    NumPy cells: the Himmelblau objective, the rank-weighted step [s], the
    rank-one covariance update, the eigen-decomposition sampling transform,
    and the pseudocode of the combined evolutionary strategy.

    Floating-point numbers are read as real numbers ([R]); a NaN, where a
    cell can produce one ([np.sqrt] of a negative number), is [None] in
    [option R].  One-dimensional arrays are lists, two-dimensional arrays are
    lists of rows. *)

From Stdlib Require Import Reals List Lia Lra Permutation Sorted PeanoNat.
From Stdlib Require String.
Import String.StringSyntax.
Import ListNotations.
Open Scope R_scope.

(** ** NumPy array operations used by the cells *)

Module NumPy.

Definition vec := list R.
Definition matrix := list vec.

(** [zip_with f u v]: elementwise operation on two arrays of equal shape. *)
Fixpoint zip_with {A B C : Type} (f : A -> B -> C) (u : list A) (v : list B) : list C :=
  match u, v with
  | a :: u', b :: v' => f a b :: zip_with f u' v'
  | _, _ => []
  end.

(** [u + v], [u * v] (elementwise), [c * u]. *)
Definition vadd (u v : vec) : vec := zip_with Rplus u v.
Definition vmul (u v : vec) : vec := zip_with Rmult u v.
Definition vscale (c : R) (u : vec) : vec := map (Rmult c) u.

(** [np.sum(u)]. *)
Definition sum (u : vec) : R := fold_right Rplus 0 u.

(** [np.mean(u)]. *)
Definition mean (u : vec) : R := sum u / INR (length u).

(** [np.std(u)]: the population standard deviation. *)
Definition std (u : vec) : R :=
  sqrt (mean (map (fun a => (a - mean u) ^ 2) u)).

(** [np.dot(u, v)] on one-dimensional arrays. *)
Definition dot (u v : vec) : R := sum (vmul u v).

(** [np.dot(M, v)] on a two-dimensional and a one-dimensional array. *)
Definition matvec (M : matrix) (v : vec) : vec := map (fun row => dot row v) M.

(** [np.outer(u, v)]. *)
Definition outer (u v : vec) : matrix := map (fun a => map (Rmult a) v) u.

(** [A + B] and [c * A] on two-dimensional arrays. *)
Definition madd (A B : matrix) : matrix := zip_with vadd A B.
Definition mscale (c : R) (A : matrix) : matrix := map (vscale c) A.

(** [np.eye(n)]. *)
Definition eye (n : nat) : matrix :=
  map (fun i => map (fun j => if Nat.eqb i j then 1 else 0) (seq 0 n)) (seq 0 n).

(** [np.zeros(n)] and [np.zeros((n, n))]. *)
Definition zeros (n : nat) : vec := repeat 0 n.
Definition mzeros (n : nat) : matrix := repeat (zeros n) n.

(** [M[i, j]]. *)
Definition get (M : matrix) (i j : nat) : R := nth j (nth i M []) 0.

(** Sum of the rows of a two-dimensional array with [n] columns:
    [np.sum(rows, axis=0)]. *)
Definition sum_axis0 (n : nat) (rows : matrix) : vec :=
  fold_right vadd (zeros n) rows.

(** [np.mean(rows, axis=0)]: the column sums divided by the number of rows. *)
Definition mean_axis0 (n : nat) (rows : matrix) : vec :=
  map (fun c => c / INR (length rows)) (sum_axis0 n rows).

(** [A @ B.T]: entry [(i, j)] is the dot product of row [i] of [A] with
    row [j] of [B]. *)
Definition mmul_T (A B : matrix) : matrix :=
  map (fun ra => map (fun rb => dot ra rb) B) A.

(** Shape [(n, n)]. *)
Definition is_square (n : nat) (M : matrix) : Prop :=
  length M = n /\ Forall (fun row => length row = n) M.

Definition symmetric (n : nat) (M : matrix) : Prop :=
  is_square n M /\
  forall i j, (i < n)%nat -> (j < n)%nat -> get M i j = get M j i.

End NumPy.

Import NumPy.

(** ** The objective *)

(** [def himmelblau(x, y): return (x**2 + y - 11)**2 + (x + y**2 - 7)**2] *)
Definition himmelblau (x y : R) : R :=
  (x ^ 2 + y - 11) ^ 2 + (x + y ^ 2 - 7) ^ 2.

(** ** [np.argsort]

    The notebook calls [np.argsort(fits)] with NumPy's default [kind]
    (quicksort), for which NumPy promises the indices that sort the array and
    nothing about the order of equal entries.  The call is therefore embedded
    as an interface: any function with the three laws below.  The third law
    says that the sort is a comparison sort: its result depends on the array
    only through the outcome of the comparisons between its entries. *)

Definition key (a : vec) (i : nat) : R := nth i a 0.

Definition ascending (a : vec) (ids : list nat) : Prop :=
  StronglySorted (fun i j => key a i <= key a j) ids.

Definition same_order (a b : vec) : Prop :=
  length a = length b /\
  forall i j, (i < length a)%nat -> (j < length a)%nat ->
    (key a i < key a j <-> key b i < key b j).

Record ArgSort : Type := {
  argsort :> vec -> list nat;
  argsort_perm : forall a, Permutation (argsort a) (seq 0 (length a));
  argsort_ascending : forall a, ascending a (argsort a);
  argsort_comparisons : forall a b, same_order a b -> argsort a = argsort b
}.

(** Two argsorts by insertion, which differ on ties only: [insertion_argsort]
    inserts the indices from the last to the first, each before the first
    index already placed that it must precede. *)
Fixpoint insert_index (before : nat -> nat -> bool) (i : nat) (ids : list nat) : list nat :=
  match ids with
  | [] => [i]
  | j :: ids' => if before i j then i :: ids else j :: insert_index before i ids'
  end.

Definition insertion_argsort (before : vec -> nat -> nat -> bool) (a : vec) : list nat :=
  fold_right (insert_index (before a)) [] (seq 0 (length a)).

(** An earlier index goes before a later one of equal value: a stable sort. *)
Definition le_before (a : vec) (i j : nat) : bool :=
  if Rle_dec (key a i) (key a j) then true else false.

(** An earlier index goes after a later one of equal value. *)
Definition lt_before (a : vec) (i j : nat) : bool :=
  if Rlt_dec (key a i) (key a j) then true else false.

Definition stable_ids : vec -> list nat := insertion_argsort le_before.
Definition reversing_ids : vec -> list nat := insertion_argsort lt_before.

(** [i] is ranked before [j] in [ids]. *)
Definition precedes (ids : list nat) (i j : nat) : Prop :=
  exists p q, (p < q)%nat /\ nth_error ids p = Some i /\ nth_error ids q = Some j.

(** The tie rule of a stable sort: of two members of equal fitness the one
    drawn earlier is ranked first. *)
Definition ties_in_sample_order (np_argsort : ArgSort) (fits : vec) : Prop :=
  forall i j, (i < j < length fits)%nat -> key fits i = key fits j ->
    precedes (np_argsort fits) i j.

(** ** The rank weights

    [w = np.log(mu + 1/2) - np.log(np.arange(1, mu+1))]
    [w /= np.sum(w)] *)

Definition log_weights (mu : nat) : vec :=
  map (fun k => ln (INR mu + 1 / 2) - ln (INR k)) (seq 1 mu).

Definition weights (mu : nat) : vec :=
  let w := log_weights mu in
  map (fun a => a / sum w) w.

(** ** The rank-weighted step

    [sorted_ids = np.argsort(fits)]
    [weighted = N[sorted_ids[:mu]] * w.reshape(mu, 1)]
    [s = np.mean(weighted, axis=0)]

    [N] has one row per member ([lam] rows); the embedding covers the shapes
    the cell runs on, [mu <= lam]. *)

(** [N[ids]]: the rows of [N] at the indices [ids]. *)
Definition take_rows (N : matrix) (ids : list nat) : matrix :=
  map (fun i => nth i N []) ids.

(** Number of columns of a two-dimensional array. *)
Definition ncols (N : matrix) : nat := length (nth 0 N []).

Definition select_and_weight (np_argsort : ArgSort) (mu : nat) (N : matrix) (fits : vec) : vec :=
  let sorted_ids := np_argsort fits in
  let w := weights mu in
  let weighted := zip_with vscale w (take_rows N (firstn mu sorted_ids)) in
  mean_axis0 (ncols N) weighted.

(** [N[sorted_ids[:mu]]]: the [mu] best-ranked offsets, best first. *)
Definition selected (np_argsort : ArgSort) (mu : nat) (N : matrix) (fits : vec) : matrix :=
  take_rows N (firstn mu (np_argsort fits)).

(** The weighted sum [sum_k w_k * t_(k)] of offsets. *)
Definition weighted_sum (n : nat) (w : vec) (ts : matrix) : vec :=
  sum_axis0 n (zip_with vscale w ts).

(** [x = x + s] *)
Definition update_mean (x s : vec) : vec := vadd x s.

(** ** The covariance updates *)

(** [C = C + np.outer(s, (s).T)] *)
Definition rank_one_update (C : matrix) (s : vec) : matrix :=
  madd C (outer s s).

(** The notebook's "common formula" [C = (1 - c_i) C + c_i s s^T]. *)
Definition damped_update (c : R) (C : matrix) (s : vec) : matrix :=
  madd (mscale (1 - c) C) (mscale c (outer s s)).

(** ** The sampling transform

    [x_N = x + N]
    [eigenvalues, eigenvectors = np.linalg.eig(C)]
    [x_C = x + np.array([np.dot(eigenvectors, np.sqrt(eigenvalues) * N[i, :])
                         for i in range(lam)])]

    [np.sqrt] of a negative number is NaN (with a warning, not an exception),
    and a NaN operand makes a product or a sum NaN. *)

Definition np_sqrt (a : R) : option R :=
  if Rlt_dec a 0 then None else Some (sqrt a).

Definition fmul (a b : option R) : option R :=
  match a, b with
  | Some u, Some v => Some (u * v)
  | _, _ => None
  end.

Definition fadd (a b : option R) : option R :=
  match a, b with
  | Some u, Some v => Some (u + v)
  | _, _ => None
  end.

Definition fdot (u v : list (option R)) : option R :=
  fold_right fadd (Some 0) (zip_with fmul u v).

(** A cell either runs to its end or raises an exception, given by name. *)
Inductive outcome (A : Type) : Type :=
| Returned (a : A)
| Raised (exception : String.string).
Arguments Returned {A} a.
Arguments Raised {A} exception.

Open Scope string_scope.
(** Raised by [np.linalg.eig] when the eigenvalue computation fails. *)
Definition LinAlgError : String.string := "LinAlgError".
(** The name under which a non-PSD covariance would be reported. *)
Definition InvalidCovarianceError : String.string := "InvalidCovarianceError".
Close Scope string_scope.

(** [np.dot(eigenvectors, np.sqrt(eigenvalues) * z)] *)
Definition transform (eigenvalues : vec) (eigenvectors : matrix) (z : vec) : list (option R) :=
  map (fun row => fdot (map Some row) (zip_with fmul (map np_sqrt eigenvalues) (map Some z)))
      eigenvectors.

(** The cell, given [np.linalg.eig] (which raises [LinAlgError] when the
    computation fails, here [None]) and the draws [N]; it returns [x_N] and
    [x_C]. *)
Definition sample (np_linalg_eig : matrix -> option (vec * matrix))
    (x : vec) (C : matrix) (N : matrix) : outcome (matrix * list (list (option R))) :=
  let x_N := map (vadd x) N in
  match np_linalg_eig C with
  | None => Raised LinAlgError
  | Some (eigenvalues, eigenvectors) =>
      Returned (x_N,
                map (fun Ni => zip_with fadd (map Some x)
                                 (transform eigenvalues eigenvectors Ni)) N)
  end.

Definition raises {A : Type} (name : String.string) (o : outcome A) : Prop :=
  o = Raised name.

(** [np.linalg.eig(C)] returns an eigenvalue below [bound]. *)
Definition has_eigenvalue_below (np_linalg_eig : matrix -> option (vec * matrix))
    (C : matrix) (bound : R) : Prop :=
  exists e Q, np_linalg_eig C = Some (e, Q) /\ Exists (fun ev => ev < bound) e.

(** Every coordinate of every point is NaN. *)
Definition all_nan (points : list (list (option R))) : Prop :=
  Forall (Forall (fun c => c = None)) points.

(** [Q * d]: column [k] of [Q] scaled by [d_k], that is [Q diag(d)]. *)
Definition mul_diag (Q : matrix) (d : vec) : matrix :=
  map (fun row => vmul row d) Q.

(** The eigen-decomposition of a diagonal matrix: the diagonal entries with
    the unit vectors. *)
Definition eig_diagonal (C : matrix) : option (vec * matrix) :=
  Some (map (fun i => get C i i) (seq 0 (length C)), eye (length C)).

(** ** The combined evolutionary strategy (pseudocode)

    [x_best = x]
    [while not terminate]
    [    for i in [1,lam]]
    [        N_i = N(0, 1)]
    [        F_i = f(x + N_i)]
    [        if F_i < f(x_best)]
    [            x_best = x + N_i]
    [    A = (F - mean(F)) / std(F)]
    [    x = x - alpha (A . N) / lam]
    [return x_best]

    The draws of a generation are an input, one row per member. *)

Module ES.

Record state : Type := { x : vec; x_best : vec }.

Section Strategy.

Variable f : vec -> R.
Variable alpha : R.

Definition init (x0 : vec) : state := {| x := x0; x_best := x0 |}.

(** One pass of the body of the [for] loop. *)
Definition track_best (x0 : vec) (best : vec) (Ni : vec) : vec :=
  if Rlt_dec (f (vadd x0 Ni)) (f best) then vadd x0 Ni else best.

Definition generation (st : state) (N : matrix) : state :=
  let best := fold_left (track_best (x st)) N (x_best st) in
  let F := map (fun Ni => f (vadd (x st) Ni)) N in
  let A := map (fun Fi => (Fi - mean F) / std F) F in
  let AN := sum_axis0 (length (x st)) (zip_with vscale A N) in
  let step := vscale alpha (map (fun c => c / INR (length N)) AN) in
  {| x := zip_with Rminus (x st) step; x_best := best |}.

(** The loop, run on the draws of its generations; [return x_best]. *)
Definition run (st : state) (draws : list matrix) : state :=
  fold_left generation draws st.

End Strategy.

End ES.

(** * Properties *)

(** C10: the Himmelblau objective is non-negative at every real point (it is
    a function of its two arguments only). *)
Theorem himmelblau_nonneg : forall x y : R, 0 <= himmelblau x y.
Proof.
  intros x y. unfold himmelblau.
  apply Rplus_le_le_0_compat; apply pow2_ge_0.
Qed.

(** ** Arrays: lengths and entries *)

Section ZipWith.

Context {A B C : Type} (f : A -> B -> C).

Lemma zip_with_length (u : list A) (v : list B) :
  length (zip_with f u v) = Nat.min (length u) (length v).
Proof.
  revert v. induction u as [|a u IH]; intros [|b v]; simpl; auto.
Qed.

Lemma nth_zip_with (u : list A) (v : list B) (i : nat) (da : A) (db : B) (dc : C) :
  (i < length u)%nat -> (i < length v)%nat ->
  nth i (zip_with f u v) dc = f (nth i u da) (nth i v db).
Proof.
  revert v i. induction u as [|a u IH]; intros [|b v] [|i]; simpl; intros; try lia; auto.
  apply IH; lia.
Qed.

End ZipWith.

Lemma vscale_length (c : R) (u : vec) : length (vscale c u) = length u.
Proof. apply length_map. Qed.

Lemma nth_vscale (c : R) (u : vec) (j : nat) :
  nth j (vscale c u) 0 = c * nth j u 0.
Proof.
  unfold vscale. destruct (Nat.lt_ge_cases j (length u)) as [Hj|Hj].
  - rewrite (nth_indep _ 0 (c * 0)) by (rewrite length_map; exact Hj).
    apply map_nth.
  - rewrite !nth_overflow; rewrite ?length_map; try lia. lra.
Qed.

Lemma zeros_length (n : nat) : length (zeros n) = n.
Proof. apply repeat_length. Qed.

Lemma vadd_zeros_r (u : vec) : vadd u (zeros (length u)) = u.
Proof.
  induction u as [|a u IH]; simpl; auto.
  unfold vadd in *. simpl. rewrite Rplus_0_r. f_equal. exact IH.
Qed.

Lemma scale_zeros (a : R) (n : nat) : map (Rmult a) (zeros n) = zeros n.
Proof.
  unfold zeros. induction n as [|n IH]; simpl; auto.
  rewrite Rmult_0_r, IH. reflexivity.
Qed.

Lemma square_row (n : nat) (M : matrix) (i : nat) :
  is_square n M -> (i < n)%nat -> length (nth i M []) = n.
Proof.
  intros [Hlen Hrows] Hi. rewrite Forall_forall in Hrows.
  apply Hrows, nth_In. lia.
Qed.

Lemma get_madd (n : nat) (A B : matrix) (i j : nat) :
  is_square n A -> is_square n B -> (i < n)%nat -> (j < n)%nat ->
  get (madd A B) i j = get A i j + get B i j.
Proof.
  intros HA HB Hi Hj. unfold get, madd.
  rewrite (nth_zip_with vadd A B i [] [] []) by (destruct HA, HB; lia).
  unfold vadd. apply nth_zip_with;
    [rewrite (square_row n A i) | rewrite (square_row n B i)]; auto.
Qed.

Lemma get_mscale (c : R) (A : matrix) (i j : nat) :
  get (mscale c A) i j = c * get A i j.
Proof.
  unfold get, mscale.
  change (@nil R) with (vscale c []) at 1. rewrite map_nth.
  apply nth_vscale.
Qed.

Lemma get_outer (u v : vec) (i j : nat) :
  (i < length u)%nat ->
  get (outer u v) i j = nth i u 0 * nth j v 0.
Proof.
  intros Hi. unfold get, outer.
  rewrite (nth_indep _ [] (map (Rmult 0) v)) by (rewrite length_map; exact Hi).
  rewrite (map_nth (fun a => map (Rmult a) v)).
  apply nth_vscale.
Qed.

Lemma madd_square (n : nat) (A B : matrix) :
  is_square n A -> is_square n B -> is_square n (madd A B).
Proof.
  intros [HA HrA] [HB HrB]. split.
  - unfold madd. rewrite zip_with_length. lia.
  - clear HA HB. revert B HrB.
    induction HrA as [|ra A Hra HrA IH]; intros [|rb B] HrB; simpl; auto.
    inversion HrB; subst. constructor.
    + unfold vadd. rewrite zip_with_length. lia.
    + apply IH; assumption.
Qed.

Lemma mscale_square (n : nat) (c : R) (A : matrix) :
  is_square n A -> is_square n (mscale c A).
Proof.
  intros [HA HrA]. split.
  - unfold mscale. rewrite length_map. exact HA.
  - unfold mscale. rewrite Forall_map.
    eapply Forall_impl; [|exact HrA]. intros r Hr. simpl.
    rewrite vscale_length. exact Hr.
Qed.

Lemma outer_square (u : vec) : is_square (length u) (outer u u).
Proof.
  split.
  - unfold outer. apply length_map.
  - unfold outer. rewrite Forall_map. apply Forall_forall.
    intros a _. apply length_map.
Qed.

(** ** Symmetry of the covariance updates *)

Lemma outer_symmetric (s : vec) : symmetric (length s) (outer s s).
Proof.
  split; [apply outer_square|].
  intros i j Hi Hj. rewrite !get_outer by assumption. apply Rmult_comm.
Qed.

Lemma madd_symmetric (n : nat) (A B : matrix) :
  symmetric n A -> symmetric n B -> symmetric n (madd A B).
Proof.
  intros [HA SA] [HB SB]. split; [apply madd_square; assumption|].
  intros i j Hi Hj. rewrite !(get_madd n) by assumption.
  rewrite (SA i j), (SB i j) by assumption. reflexivity.
Qed.

Lemma mscale_symmetric (n : nat) (c : R) (A : matrix) :
  symmetric n A -> symmetric n (mscale c A).
Proof.
  intros [HA SA]. split; [apply mscale_square; assumption|].
  intros i j Hi Hj. rewrite !get_mscale. rewrite (SA i j) by assumption. reflexivity.
Qed.

(** C3: for a symmetric [n x n] covariance [C] and a step [s] of dimension
    [n], the update of the code, [C + outer(s, s)], is symmetric, and so is
    the damped update [(1 - c) C + c outer(s, s)] for every learning rate
    [c]. *)
Theorem update_covariance_symmetric :
  forall (n : nat) (C : matrix) (s : vec) (c : R),
    symmetric n C -> length s = n ->
    symmetric n (rank_one_update C s) /\ symmetric n (damped_update c C s).
Proof.
  intros n C s c HC Hs. subst n. split.
  - apply madd_symmetric; [exact HC | apply outer_symmetric].
  - apply madd_symmetric; apply mscale_symmetric; [exact HC | apply outer_symmetric].
Qed.

Lemma eye2_symmetric : symmetric 2 (eye 2).
Proof.
  split.
  - split; [reflexivity | repeat constructor].
  - intros [|[|i]] [|[|j]] Hi Hj; try lia; reflexivity.
Qed.

Lemma update_covariance_symmetric_witness :
  symmetric 2 (rank_one_update (eye 2) [1; 2]) /\
  symmetric 2 (damped_update (1 / 2) (eye 2) [1; 2]).
Proof.
  apply (update_covariance_symmetric 2 (eye 2) [1; 2] (1 / 2)).
  - exact eye2_symmetric.
  - reflexivity.
Defined.

(** ** The covariance updates at the zero step *)

Lemma outer_zeros_r (u : vec) (n : nat) :
  outer u (zeros n) = repeat (zeros n) (length u).
Proof.
  unfold outer. induction u as [|a u IH]; simpl; [reflexivity|].
  rewrite scale_zeros, IH. reflexivity.
Qed.

Lemma outer_zeros (n : nat) : outer (zeros n) (zeros n) = mzeros n.
Proof.
  rewrite outer_zeros_r, zeros_length. reflexivity.
Qed.

Lemma madd_mzeros_r (n : nat) (C : matrix) :
  is_square n C -> madd C (mzeros n) = C.
Proof.
  intros [Hlen Hrows]. unfold madd, mzeros. rewrite <- Hlen at 2. clear Hlen.
  induction Hrows as [|r C Hr Hrows IH]; simpl; [reflexivity|].
  rewrite IH. f_equal. rewrite <- Hr. apply vadd_zeros_r.
Qed.

Lemma rank_one_update_zero (n : nat) (C : matrix) :
  is_square n C -> rank_one_update C (zeros n) = C.
Proof.
  intros HC. unfold rank_one_update. rewrite outer_zeros.
  apply madd_mzeros_r, HC.
Qed.

(** C7: the update of the code, [C = C + np.outer(s, (s).T)] (the form the
    specification reads as learning rate 1), returns an [n x n] covariance
    [C] unchanged when [s] is the zero vector. *)
Theorem update_covariance_zero_step :
  forall (n : nat) (C : matrix),
    is_square n C -> rank_one_update C (zeros n) = C.
Proof.
  intros n C HC. apply rank_one_update_zero, HC.
Qed.

Lemma eye2_square : is_square 2 (eye 2).
Proof. split; [reflexivity | repeat constructor]. Qed.

Lemma update_covariance_zero_step_witness :
  rank_one_update (eye 2) (zeros 2) = eye 2.
Proof.
  apply (update_covariance_zero_step 2 (eye 2)). exact eye2_square.
Defined.

(** ** The rank weights *)

Lemma nth_map_in_range {A B : Type} (f : A -> B) (l : list A) (i : nat) (da : A) (db : B) :
  (i < length l)%nat -> nth i (map f l) db = f (nth i l da).
Proof.
  intros Hi. rewrite (nth_indep _ db (f da)) by (rewrite length_map; exact Hi).
  apply map_nth.
Qed.

Lemma sum_map_div (l : vec) (d : R) : sum (map (fun a => a / d) l) = sum l / d.
Proof.
  unfold sum. induction l as [|a l IH]; simpl; [lra|].
  rewrite IH. lra.
Qed.

Lemma sum_pos (l : vec) : l <> [] -> Forall (fun a => 0 < a) l -> 0 < sum l.
Proof.
  intros Hne Hpos. destruct Hpos as [|a l Ha Hl]; [congruence|clear Hne].
  unfold sum. simpl. revert a Ha.
  induction Hl as [|b l Hb Hl IH]; intros a Ha; simpl; [lra|].
  specialize (IH b Hb). lra.
Qed.

Lemma log_weight_pos (mu k : nat) :
  (1 <= k <= mu)%nat -> 0 < ln (INR mu + 1 / 2) - ln (INR k).
Proof.
  intros [H1 H2].
  assert (Hk : 0 < INR k) by (apply lt_0_INR; lia).
  assert (Hle : INR k <= INR mu) by (apply le_INR; exact H2).
  assert (Hln : ln (INR k) < ln (INR mu + 1 / 2)) by (apply ln_increasing; lra).
  lra.
Qed.

Lemma log_weights_length (mu : nat) : length (log_weights mu) = mu.
Proof. unfold log_weights. rewrite length_map. apply length_seq. Qed.

Lemma log_weights_pos (mu : nat) : Forall (fun a => 0 < a) (log_weights mu).
Proof.
  apply Forall_forall. intros a Ha. unfold log_weights in Ha.
  apply in_map_iff in Ha. destruct Ha as [k [<- Hk]].
  apply in_seq in Hk. apply log_weight_pos. lia.
Qed.

Lemma log_weights_sum_pos (mu : nat) : (1 <= mu)%nat -> 0 < sum (log_weights mu).
Proof.
  intros Hmu. apply sum_pos; [|apply log_weights_pos].
  intros E. apply (f_equal (@length R)) in E.
  rewrite log_weights_length in E. simpl in E. lia.
Qed.

Lemma weights_length (mu : nat) : length (weights mu) = mu.
Proof. unfold weights. rewrite length_map. apply log_weights_length. Qed.

Lemma weights_sum (mu : nat) : (1 <= mu)%nat -> sum (weights mu) = 1.
Proof.
  intros Hmu. unfold weights. rewrite sum_map_div.
  pose proof (log_weights_sum_pos mu Hmu). field. lra.
Qed.

Lemma nth_weights (mu i : nat) :
  (i < mu)%nat ->
  nth i (weights mu) 0 =
  (ln (INR mu + 1 / 2) - ln (INR (S i))) / sum (log_weights mu).
Proof.
  intros Hi. unfold weights.
  rewrite (nth_map_in_range _ _ i 0) by (rewrite log_weights_length; exact Hi).
  f_equal. unfold log_weights.
  rewrite (nth_map_in_range _ _ i 0%nat) by (rewrite length_seq; exact Hi).
  rewrite seq_nth by exact Hi. reflexivity.
Qed.

(** C5: for every [mu >= 1] the normalized logarithmic weights are [mu]
    numbers that sum to 1, are non-negative and do not increase with the
    rank: [w_1 >= w_2 >= ... >= w_mu >= 0]. *)
Theorem weights_normalized_monotone :
  forall mu : nat,
    (1 <= mu)%nat ->
    length (weights mu) = mu /\
    sum (weights mu) = 1 /\
    forall i j, (i <= j < mu)%nat ->
      0 <= nth j (weights mu) 0 <= nth i (weights mu) 0.
Proof.
  intros mu Hmu. split; [apply weights_length|]. split; [apply weights_sum, Hmu|].
  intros i j [Hij Hj].
  rewrite !nth_weights by lia.
  pose proof (log_weights_sum_pos mu Hmu) as HS.
  assert (Hpos : 0 < ln (INR mu + 1 / 2) - ln (INR (S j)))
    by (apply log_weight_pos; lia).
  assert (Hmono : ln (INR (S i)) <= ln (INR (S j))).
  { destruct (Nat.eq_dec i j) as [->|Hne]; [lra|].
    left. apply ln_increasing; [apply lt_0_INR; lia | apply lt_INR; lia]. }
  split.
  - apply Rlt_le, Rdiv_lt_0_compat; assumption.
  - unfold Rdiv. apply Rmult_le_compat_r; [|lra].
    left. apply Rinv_0_lt_compat, HS.
Qed.

Lemma weights_normalized_monotone_witness :
  length (weights 3) = 3%nat /\
  sum (weights 3) = 1 /\
  forall i j, (i <= j < 3)%nat ->
    0 <= nth j (weights 3) 0 <= nth i (weights 3) 0.
Proof.
  apply (weights_normalized_monotone 3). lia.
Defined.

(** ** Argsort by insertion meets the interface *)

Section InsertionArgsort.

Variable k : nat -> R.
Variable before : nat -> nat -> bool.
Hypothesis before_true : forall i j, before i j = true -> k i <= k j.
Hypothesis before_false : forall i j, before i j = false -> k j <= k i.

Lemma insert_index_perm (i : nat) (ids : list nat) :
  Permutation (insert_index before i ids) (i :: ids).
Proof.
  induction ids as [|j ids IH]; simpl; [reflexivity|].
  destruct (before i j); [reflexivity|].
  rewrite IH. apply perm_swap.
Qed.

Lemma insert_index_sorted (i : nat) (ids : list nat) :
  StronglySorted (fun a b => k a <= k b) ids ->
  StronglySorted (fun a b => k a <= k b) (insert_index before i ids).
Proof.
  induction 1 as [|j ids Hs IH Hj]; simpl.
  - repeat constructor.
  - destruct (before i j) eqn:E.
    + constructor; [constructor; assumption|].
      constructor; [apply before_true, E|].
      eapply Forall_impl; [|exact Hj]. intros b Hb. simpl in Hb.
      apply before_true in E. lra.
    + constructor; [exact IH|].
      apply (Permutation_Forall (Permutation_sym (insert_index_perm i ids))).
      constructor; [apply before_false, E | exact Hj].
Qed.

Lemma fold_insert_perm (ids : list nat) :
  Permutation (fold_right (insert_index before) [] ids) ids.
Proof.
  induction ids as [|i ids IH]; simpl; [reflexivity|].
  rewrite insert_index_perm. constructor. exact IH.
Qed.

Lemma fold_insert_sorted (ids : list nat) :
  StronglySorted (fun a b => k a <= k b) (fold_right (insert_index before) [] ids).
Proof.
  induction ids as [|i ids IH]; simpl; [constructor|].
  apply insert_index_sorted, IH.
Qed.

End InsertionArgsort.

Lemma insert_index_ext (f g : nat -> nat -> bool) (i : nat) (ids : list nat) :
  (forall j, In j ids -> f i j = g i j) ->
  insert_index f i ids = insert_index g i ids.
Proof.
  induction ids as [|j ids IH]; intros H; simpl; [reflexivity|].
  rewrite (H j) by (left; reflexivity).
  rewrite IH by (intros j' Hj'; apply H; right; exact Hj').
  reflexivity.
Qed.

Lemma fold_insert_ext (f g : nat -> nat -> bool) (ids : list nat) :
  (forall i j, In i ids -> In j ids -> f i j = g i j) ->
  fold_right (insert_index f) [] ids = fold_right (insert_index g) [] ids.
Proof.
  induction ids as [|i ids IH]; intros H; simpl; [reflexivity|].
  rewrite IH by (intros a b Ha Hb; apply H; right; assumption).
  apply insert_index_ext. intros j Hj.
  apply H; [left; reflexivity | right].
  eapply Permutation_in; [apply fold_insert_perm | exact Hj].
Qed.

Lemma le_before_true (a : vec) (i j : nat) : le_before a i j = true -> key a i <= key a j.
Proof. unfold le_before. destruct (Rle_dec (key a i) (key a j)); [auto | discriminate]. Qed.

Lemma le_before_false (a : vec) (i j : nat) : le_before a i j = false -> key a j <= key a i.
Proof. unfold le_before. destruct (Rle_dec (key a i) (key a j)); [discriminate | lra]. Qed.

Lemma lt_before_true (a : vec) (i j : nat) : lt_before a i j = true -> key a i <= key a j.
Proof. unfold lt_before. destruct (Rlt_dec (key a i) (key a j)); [lra | discriminate]. Qed.

Lemma lt_before_false (a : vec) (i j : nat) : lt_before a i j = false -> key a j <= key a i.
Proof. unfold lt_before. destruct (Rlt_dec (key a i) (key a j)); [discriminate | lra]. Qed.

Lemma le_before_same_order (a b : vec) (i j : nat) :
  same_order a b -> (i < length a)%nat -> (j < length a)%nat ->
  le_before a i j = le_before b i j.
Proof.
  intros [_ H] Hi Hj. specialize (H j i Hj Hi). unfold le_before.
  destruct (Rle_dec (key a i) (key a j)), (Rle_dec (key b i) (key b j));
    try reflexivity; exfalso.
  - assert (key b j < key b i) by lra. apply H in H0. lra.
  - assert (key a j < key a i) by lra. apply H in H0. lra.
Qed.

Lemma lt_before_same_order (a b : vec) (i j : nat) :
  same_order a b -> (i < length a)%nat -> (j < length a)%nat ->
  lt_before a i j = lt_before b i j.
Proof.
  intros [_ H] Hi Hj. specialize (H i j Hi Hj). unfold lt_before.
  destruct (Rlt_dec (key a i) (key a j)), (Rlt_dec (key b i) (key b j));
    try reflexivity; exfalso; tauto.
Qed.

Lemma insertion_argsort_comparisons (before : vec -> nat -> nat -> bool) :
  (forall a b i j, same_order a b -> (i < length a)%nat -> (j < length a)%nat ->
                   before a i j = before b i j) ->
  forall a b, same_order a b -> insertion_argsort before a = insertion_argsort before b.
Proof.
  intros Hext a b Hab. unfold insertion_argsort.
  destruct Hab as [Hlen Hord]. rewrite <- Hlen.
  apply fold_insert_ext. intros i j Hi Hj.
  apply in_seq in Hi. apply in_seq in Hj.
  apply Hext; [split; assumption | lia | lia].
Qed.

(** [np.argsort(fits, kind='stable')]. *)
Definition stable_argsort : ArgSort :=
  {| argsort := stable_ids;
     argsort_perm := fun a => fold_insert_perm (le_before a) (seq 0 (length a));
     argsort_ascending := fun a =>
       fold_insert_sorted (key a) (le_before a) (le_before_true a) (le_before_false a)
                          (seq 0 (length a));
     argsort_comparisons := insertion_argsort_comparisons le_before le_before_same_order |}.

(** An argsort that ranks the later of two equal entries first. *)
Definition reversing_argsort : ArgSort :=
  {| argsort := reversing_ids;
     argsort_perm := fun a => fold_insert_perm (lt_before a) (seq 0 (length a));
     argsort_ascending := fun a =>
       fold_insert_sorted (key a) (lt_before a) (lt_before_true a) (lt_before_false a)
                          (seq 0 (length a));
     argsort_comparisons := insertion_argsort_comparisons lt_before lt_before_same_order |}.

(** ** The insertion argsort with [le_before] is stable *)

Lemma split_precedes (l1 l2 : list nat) (i j : nat) :
  In j l2 -> precedes (l1 ++ i :: l2) i j.
Proof.
  intros Hj. apply In_nth_error in Hj. destruct Hj as [q Hq].
  exists (length l1), (length l1 + S q)%nat. split; [lia|]. split.
  - rewrite nth_error_app2 by lia. rewrite Nat.sub_diag. reflexivity.
  - rewrite nth_error_app2 by lia.
    replace (length l1 + S q - length l1)%nat with (S q) by lia. exact Hq.
Qed.

(** [i] stands before [j] in [ids]. *)
Definition stands_before (ids : list nat) (i j : nat) : Prop :=
  exists l1 l2, ids = l1 ++ i :: l2 /\ In j l2.

Lemma insert_keeps_order (before : nat -> nat -> bool) (i : nat) (ids : list nat) (a b : nat) :
  stands_before ids a b -> stands_before (insert_index before i ids) a b.
Proof.
  revert a b. induction ids as [|h ids IH]; intros a b [l1 [l2 [E Hb]]].
  - destruct l1; discriminate.
  - simpl. destruct (before i h).
    + exists (i :: l1), l2. split; [rewrite E; reflexivity | exact Hb].
    + destruct l1 as [|h' l1]; simpl in E; injection E as -> ->.
      * exists [], (insert_index before i l2). split; [reflexivity|].
        apply (Permutation_in _ (Permutation_sym (insert_index_perm before i l2))).
        right. exact Hb.
      * destruct (IH a b) as [m1 [m2 [E' Hb']]].
        { exists l1, l2. split; [reflexivity | exact Hb]. }
        exists (h' :: m1), m2. split; [rewrite E'; reflexivity | exact Hb'].
Qed.

Lemma insert_before_later (before : nat -> nat -> bool) (i : nat) (ids : list nat) (b : nat) :
  In b ids -> before i b = true -> stands_before (insert_index before i ids) i b.
Proof.
  induction ids as [|h ids IH]; intros Hb Hib; [destruct Hb|].
  simpl. destruct (before i h) eqn:E.
  - exists [], (h :: ids). split; [reflexivity | exact Hb].
  - destruct Hb as [->|Hb]; [congruence|].
    destruct (IH Hb Hib) as [m1 [m2 [E' Hb']]].
    exists (h :: m1), m2. split; [rewrite E'; reflexivity | exact Hb'].
Qed.

Lemma fold_insert_stable (a : vec) (n s : nat) (i j : nat) :
  In i (seq s n) -> In j (seq s n) -> (i < j)%nat -> key a i = key a j ->
  stands_before (fold_right (insert_index (le_before a)) [] (seq s n)) i j.
Proof.
  revert s. induction n as [|n IH]; intros s Hi Hj Hij E; [destruct Hi|].
  pose proof (proj1 (in_seq _ _ _) Hi) as Hi'.
  pose proof (proj1 (in_seq _ _ _) Hj) as Hj'.
  simpl in *. destruct Hj as [->|Hj]; [lia|].
  destruct Hi as [<-|Hi].
  - apply insert_before_later.
    + apply (Permutation_in _ (Permutation_sym (fold_insert_perm _ _))). exact Hj.
    + unfold le_before. destruct (Rle_dec (key a s) (key a j)); [reflexivity | lra].
  - apply insert_keeps_order, IH; assumption.
Qed.

Lemma stable_argsort_stable (fits : vec) : ties_in_sample_order stable_argsort fits.
Proof.
  intros i j Hij E.
  destruct (fold_insert_stable fits (length fits) 0 i j) as [l1 [l2 [El Hj]]].
  - apply in_seq. lia.
  - apply in_seq. lia.
  - lia.
  - exact E.
  - change (stable_argsort fits) with
      (fold_right (insert_index (le_before fits)) [] (seq 0 (length fits))).
    rewrite El. apply split_precedes, Hj.
Qed.

(** ** What the ranking of [np.argsort] determines *)

Lemma sorted_nth_error {A : Type} (Rel : A -> A -> Prop) (l : list A) :
  StronglySorted Rel l ->
  forall p q a b, (p < q)%nat -> nth_error l p = Some a -> nth_error l q = Some b ->
    Rel a b.
Proof.
  induction 1 as [|c l Hs IH Hc]; intros p q a b Hpq Hp Hq.
  - destruct p; discriminate.
  - destruct q as [|q]; [lia|]. simpl in Hq.
    destruct p as [|p]; simpl in Hp.
    + injection Hp as <-. rewrite Forall_forall in Hc.
      apply Hc. eapply nth_error_In, Hq.
    + apply (IH p q); [lia | assumption | assumption].
Qed.

Lemma argsort_in (np_argsort : ArgSort) (fits : vec) (i : nat) :
  In i (np_argsort fits) <-> (i < length fits)%nat.
Proof.
  pose proof (argsort_perm np_argsort fits) as HP. split; intros H.
  - apply (Permutation_in _ HP) in H. apply in_seq in H. lia.
  - apply (Permutation_in _ (Permutation_sym HP)). apply in_seq. lia.
Qed.

Lemma argsort_length (np_argsort : ArgSort) (fits : vec) :
  length (np_argsort fits) = length fits.
Proof.
  rewrite (Permutation_length (argsort_perm np_argsort fits)). apply length_seq.
Qed.

Lemma lower_fitness_ranked_first (np_argsort : ArgSort) (fits : vec) (i j : nat) :
  (i < length fits)%nat -> (j < length fits)%nat ->
  key fits i < key fits j -> precedes (np_argsort fits) i j.
Proof.
  intros Hi Hj Hlt.
  apply argsort_in with (np_argsort := np_argsort) in Hi, Hj.
  apply In_nth_error in Hi, Hj. destruct Hi as [p Hp], Hj as [q Hq].
  exists p, q. split; [|split; assumption].
  destruct (Nat.lt_total p q) as [Hpq|[Hpq|Hpq]]; [exact Hpq | exfalso | exfalso].
  - subst q. rewrite Hp in Hq. injection Hq as ->. lra.
  - pose proof (sorted_nth_error _ _ (argsort_ascending np_argsort fits)
                                 q p j i Hpq Hq Hp) as Hle.
    simpl in Hle. lra.
Qed.

(** Two ascending arrangements of the same indices are equal when distinct
    indices have distinct keys. *)
Lemma ascending_perm_unique (a : vec) (l1 l2 : list nat) :
  (forall i j, In i l1 -> In j l1 -> key a i = key a j -> i = j) ->
  ascending a l1 -> ascending a l2 -> Permutation l1 l2 -> l1 = l2.
Proof.
  intros Hinj H1. revert l2.
  induction H1 as [|i l1 Hs1 IH Hi]; intros l2 H2 HP.
  - apply Permutation_nil in HP. subst. reflexivity.
  - destruct H2 as [|j l2 Hs2 Hj].
    + apply Permutation_sym, Permutation_nil in HP. discriminate.
    + assert (E : i = j).
      { assert (Hin_i : In i (j :: l2))
          by (apply (Permutation_in _ HP); left; reflexivity).
        assert (Hin_j : In j (i :: l1))
          by (apply (Permutation_in _ (Permutation_sym HP)); left; reflexivity).
        destruct Hin_i as [->|Hin_i]; [reflexivity|].
        destruct Hin_j as [->|Hin_j]; [reflexivity|].
        rewrite Forall_forall in Hi, Hj.
        specialize (Hi j Hin_j). specialize (Hj i Hin_i). simpl in Hi, Hj.
        apply Hinj; [left; reflexivity | right; exact Hin_j | lra]. }
      subst j. f_equal. apply IH.
      * intros u v Hu Hv. apply Hinj; right; assumption.
      * exact Hs2.
      * eapply Permutation_cons_inv, HP.
Qed.

Lemma argsort_unique_without_ties (A1 A2 : ArgSort) (fits : vec) :
  NoDup fits -> A1 fits = A2 fits.
Proof.
  intros Hnd. apply (ascending_perm_unique fits).
  - intros i j Hi Hj E. apply argsort_in in Hi, Hj.
    rewrite NoDup_nth in Hnd. apply (Hnd i j Hi Hj E).
  - apply argsort_ascending.
  - apply argsort_ascending.
  - rewrite (argsort_perm A1 fits), (argsort_perm A2 fits). reflexivity.
Qed.

Lemma argsort_NoDup (np_argsort : ArgSort) (fits : vec) : NoDup (np_argsort fits).
Proof.
  apply (Permutation_NoDup (Permutation_sym (argsort_perm np_argsort fits))).
  apply seq_NoDup.
Qed.

Lemma pairwise_sorted {A : Type} (Rel : A -> A -> Prop) (l : list A) :
  (forall p q a b, (p < q)%nat -> nth_error l p = Some a -> nth_error l q = Some b ->
     Rel a b) ->
  StronglySorted Rel l.
Proof.
  induction l as [|c l IH]; intros H; constructor.
  - apply IH. intros p q a b Hpq Hp Hq. apply (H (S p) (S q)); [lia | exact Hp | exact Hq].
  - apply Forall_forall. intros b Hb. apply In_nth_error in Hb. destruct Hb as [q Hq].
    apply (H 0%nat (S q)); [lia | reflexivity | exact Hq].
Qed.

(** The order of a stable ranking: by fitness, and by index among equals. *)
Definition ranked_before (fits : vec) (i j : nat) : Prop :=
  key fits i < key fits j \/ (key fits i = key fits j /\ (i < j)%nat).

Lemma ranked_unique (fits : vec) (l1 l2 : list nat) :
  StronglySorted (ranked_before fits) l1 -> StronglySorted (ranked_before fits) l2 ->
  Permutation l1 l2 -> l1 = l2.
Proof.
  intros H1. revert l2.
  induction H1 as [|i l1 Hs1 IH Hi]; intros l2 H2 HP.
  - apply Permutation_nil in HP. subst. reflexivity.
  - destruct H2 as [|j l2 Hs2 Hj].
    + apply Permutation_sym, Permutation_nil in HP. discriminate.
    + assert (E : i = j).
      { assert (Hin_i : In i (j :: l2))
          by (apply (Permutation_in _ HP); left; reflexivity).
        assert (Hin_j : In j (i :: l1))
          by (apply (Permutation_in _ (Permutation_sym HP)); left; reflexivity).
        destruct Hin_i as [->|Hin_i]; [reflexivity|].
        destruct Hin_j as [->|Hin_j]; [reflexivity|].
        rewrite Forall_forall in Hi, Hj.
        specialize (Hi j Hin_j). specialize (Hj i Hin_i).
        unfold ranked_before in Hi, Hj.
        destruct Hi as [Hi|[Hi Hi']], Hj as [Hj|[Hj Hj']]; try lra. lia. }
      subst j. f_equal. apply IH; [exact Hs2|].
      eapply Permutation_cons_inv, HP.
Qed.

Lemma ties_order_ranked (np_argsort : ArgSort) (fits : vec) :
  ties_in_sample_order np_argsort fits ->
  StronglySorted (ranked_before fits) (np_argsort fits).
Proof.
  intros Hties. apply pairwise_sorted. intros p q a b Hpq Hp Hq.
  pose proof (sorted_nth_error _ _ (argsort_ascending np_argsort fits)
                               p q a b Hpq Hp Hq) as Hle.
  simpl in Hle. destruct Hle as [Hlt|Heq]; [left; exact Hlt|].
  right. split; [exact Heq|].
  pose proof (argsort_NoDup np_argsort fits) as Hnd.
  rewrite NoDup_nth_error in Hnd.
  assert (Hq' : (q < length (np_argsort fits))%nat)
    by (apply nth_error_Some; rewrite Hq; discriminate).
  assert (Hp' : (p < length (np_argsort fits))%nat) by lia.
  destruct (Nat.lt_total a b) as [Hab|[Hab|Hab]]; [exact Hab | exfalso | exfalso].
  - subst b. assert (p = q) by (apply Hnd; [exact Hp' | congruence]). lia.
  - assert (Ha : (a < length fits)%nat)
      by (apply (argsort_in np_argsort); eapply nth_error_In, Hp).
    destruct (Hties b a) as [p' [q' [Hpq' [Hb' Ha']]]]; [lia | lra |].
    assert (Hq'' : (q' < length (np_argsort fits))%nat)
      by (apply nth_error_Some; rewrite Ha'; discriminate).
    assert (p' = q) by (apply Hnd; [lia | congruence]).
    assert (q' = p) by (apply Hnd; [exact Hq'' | congruence]).
    lia.
Qed.

(** On ties the claim of a stable sort holds of a ranking exactly when it
    is the ranking of the stable sort. *)
Lemma ties_in_sample_order_iff (np_argsort : ArgSort) (fits : vec) :
  ties_in_sample_order np_argsort fits <-> np_argsort fits = stable_argsort fits.
Proof.
  split.
  - intros H. apply (ranked_unique fits).
    + apply ties_order_ranked, H.
    + apply ties_order_ranked, stable_argsort_stable.
    + rewrite (argsort_perm np_argsort fits), (argsort_perm stable_argsort fits).
      reflexivity.
  - intros E i j Hij Hkey. rewrite E. apply stable_argsort_stable; assumption.
Qed.

Ltac eval_argsort :=
  unfold le_before, lt_before, key;
  repeat (cbn; match goal with
               | |- context [Rle_dec ?a ?b] => destruct (Rle_dec a b); try lra
               | |- context [Rlt_dec ?a ?b] => destruct (Rlt_dec a b); try lra
               end);
  reflexivity.

Lemma stable_argsort_1_1_0_0 :
  stable_argsort [1; 1; 0; 0] = [2%nat; 3%nat; 0%nat; 1%nat].
Proof.
  change (stable_argsort [1; 1; 0; 0]) with
    (fold_right (insert_index (le_before [1; 1; 0; 0])) [] [0; 1; 2; 3]%nat).
  eval_argsort.
Qed.

Lemma reversing_argsort_1_1_0_0 :
  reversing_argsort [1; 1; 0; 0] = [3%nat; 2%nat; 1%nat; 0%nat].
Proof.
  change (reversing_argsort [1; 1; 0; 0]) with
    (fold_right (insert_index (lt_before [1; 1; 0; 0])) [] [0; 1; 2; 3]%nat).
  eval_argsort.
Qed.

(** C8: the ranking is ascending in fitness whatever [np.argsort] does on
    ties: every member receives exactly one rank, a member of strictly lower
    fitness is ranked before one of higher fitness, and when no two members
    have the same fitness the ranking is the one the stable sort gives. *)
Theorem ranking_ascending_ties_unspecified :
  forall (np_argsort : ArgSort) (fits : vec),
    Permutation (np_argsort fits) (seq 0 (length fits)) /\
    (forall i j, (i < length fits)%nat -> (j < length fits)%nat ->
       key fits i < key fits j -> precedes (np_argsort fits) i j) /\
    (NoDup fits -> np_argsort fits = stable_argsort fits).
Proof.
  intros A fits. split; [apply argsort_perm|]. split.
  - intros i j. apply lower_fitness_ranked_first.
  - intros Hnd. apply argsort_unique_without_ties, Hnd.
Qed.

Lemma ranking_ascending_ties_unspecified_witness :
  precedes (reversing_argsort [2; 1]) 1 0 /\
  reversing_argsort [2; 1] = stable_argsort [2; 1].
Proof.
  destruct (ranking_ascending_ties_unspecified reversing_argsort [2; 1])
    as [_ [Hlt Hnd]].
  split.
  - apply Hlt; simpl; try lia. unfold key. simpl. lra.
  - apply Hnd. repeat constructor; simpl; intros H.
    + destruct H as [H|[]]. lra.
    + exact H.
Defined.

(** C8, as stated, fails on the fitness values [[1, 1, 0, 0]].  The
    ranking of a stable sort is [[2, 3, 0, 1]], and the tie rule of the
    claim holds of a ranking [np.argsort] returns there exactly when it is
    that one; each of the other ascending rankings, which the default
    [kind] is free to return, such as [[3, 2, 1, 0]], ranks a later member
    before an earlier one of equal fitness. *)
Lemma ties_in_sample_order_counterexample :
  stable_argsort [1; 1; 0; 0] = [2%nat; 3%nat; 0%nat; 1%nat] /\
  (forall np_argsort : ArgSort,
     ties_in_sample_order np_argsort [1; 1; 0; 0] <->
     np_argsort [1; 1; 0; 0] = [2%nat; 3%nat; 0%nat; 1%nat]) /\
  reversing_argsort [1; 1; 0; 0] = [3%nat; 2%nat; 1%nat; 0%nat] /\
  ~ ties_in_sample_order reversing_argsort [1; 1; 0; 0].
Proof.
  split; [exact stable_argsort_1_1_0_0|]. split; [|split].
  - intros A. rewrite <- stable_argsort_1_1_0_0. apply ties_in_sample_order_iff.
  - exact reversing_argsort_1_1_0_0.
  - intros H. apply ties_in_sample_order_iff in H.
    rewrite reversing_argsort_1_1_0_0, stable_argsort_1_1_0_0 in H. discriminate.
Qed.

(** ** The rank-weighted step *)

Lemma selected_length (np_argsort : ArgSort) (mu : nat) (N : matrix) (fits : vec) :
  length (selected np_argsort mu N fits) = Nat.min mu (length fits).
Proof.
  unfold selected, take_rows.
  rewrite length_map, length_firstn, argsort_length. reflexivity.
Qed.

Lemma weighted_length (np_argsort : ArgSort) (mu : nat) (N : matrix) (fits : vec) :
  (mu <= length fits)%nat ->
  length (zip_with vscale (weights mu) (selected np_argsort mu N fits)) = mu.
Proof.
  intros Hmu. rewrite zip_with_length, weights_length, selected_length. lia.
Qed.

Lemma select_and_weight_mean (np_argsort : ArgSort) (mu : nat) (N : matrix) (fits : vec) :
  (mu <= length fits)%nat ->
  select_and_weight np_argsort mu N fits =
  map (fun c => c / INR mu)
      (weighted_sum (ncols N) (weights mu) (selected np_argsort mu N fits)).
Proof.
  intros Hmu. unfold select_and_weight, mean_axis0, weighted_sum.
  fold (selected np_argsort mu N fits).
  rewrite weighted_length by exact Hmu. reflexivity.
Qed.

Lemma stable_argsort_0_1 : stable_argsort [0; 1] = [0%nat; 1%nat].
Proof.
  change (insert_index (le_before [0; 1]) 0
            (insert_index (le_before [0; 1]) 1 []) = [0%nat; 1%nat]).
  simpl. unfold le_before, key. simpl.
  destruct (Rle_dec 0 1); [reflexivity | lra].
Qed.

(** C1: the weighted sum [sum_k w_k * t_(k)] is not what the cell returns.
    With two members of offset [(1, 0)], [mu = 2] and [x = (0, 0)], the
    weighted sum of the selected offsets with the normalized weights is
    [(1, 0)], as is the weighted average of the two selected points, both
    [(1, 0)]; the cell, which ends in [np.mean(weighted, axis=0)], returns
    [s = (1/2, 0)], half of it, and [x = x + s] puts [x] at [(1/2, 0)]. *)
Theorem select_and_weight_divides_by_mu :
  weighted_sum 2 (weights 2) (selected stable_argsort 2 [[1; 0]; [1; 0]] [0; 1]) = [1; 0] /\
  weighted_sum 2 (weights 2)
    (map (vadd [0; 0]) (selected stable_argsort 2 [[1; 0]; [1; 0]] [0; 1])) = [1; 0] /\
  select_and_weight stable_argsort 2 [[1; 0]; [1; 0]] [0; 1] = [1 / 2; 0] /\
  update_mean [0; 0] (select_and_weight stable_argsort 2 [[1; 0]; [1; 0]] [0; 1]) =
  [1 / 2; 0] /\
  select_and_weight stable_argsort 2 [[1; 0]; [1; 0]] [0; 1] <>
  weighted_sum 2 (weights 2) (selected stable_argsort 2 [[1; 0]; [1; 0]] [0; 1]).
Proof.
  pose proof (weights_sum 2 (le_S _ _ (le_n 1))) as Hsum.
  assert (Hws : weighted_sum 2 (weights 2)
                  (selected stable_argsort 2 [[1; 0]; [1; 0]] [0; 1]) = [1; 0]).
  { unfold weighted_sum, selected. rewrite stable_argsort_0_1.
    unfold weights in *. cbn [log_weights seq map] in *.
    set (w1 := _ / _) in *. set (w2 := _ / _) in *.
    cbn in Hsum. cbn. apply (f_equal2 cons); [lra | apply (f_equal2 cons); [lra | reflexivity]]. }
  assert (Hwp : weighted_sum 2 (weights 2)
                  (map (vadd [0; 0])
                     (selected stable_argsort 2 [[1; 0]; [1; 0]] [0; 1])) = [1; 0]).
  { unfold weighted_sum, selected. rewrite stable_argsort_0_1.
    unfold weights in *. cbn [log_weights seq map] in *.
    set (w1 := _ / _) in *. set (w2 := _ / _) in *.
    cbn in Hsum. cbn. apply (f_equal2 cons); [lra | apply (f_equal2 cons); [lra | reflexivity]]. }
  assert (Hs : select_and_weight stable_argsort 2 [[1; 0]; [1; 0]] [0; 1] = [1 / 2; 0]).
  { rewrite select_and_weight_mean by (simpl; lia).
    change (ncols [[1; 0]; [1; 0]]) with 2%nat. rewrite Hws. cbn.
    apply (f_equal2 cons); [lra | apply (f_equal2 cons); [lra | reflexivity]]. }
  split; [exact Hws|]. split; [exact Hwp|]. split; [exact Hs|]. split.
  - rewrite Hs. unfold update_mean, vadd. cbn.
    apply (f_equal2 cons); [lra | apply (f_equal2 cons); [lra | reflexivity]].
  - rewrite Hs, Hws. intros E. injection E as E. lra.
Qed.

(** ** The step depends on the fitness values through their order only *)

Lemma key_map (g : R -> R) (fits : vec) (i : nat) :
  (i < length fits)%nat -> key (map g fits) i = g (key fits i).
Proof.
  intros Hi. unfold key. apply nth_map_in_range. exact Hi.
Qed.

Lemma increasing_same_order (g : R -> R) (fits : vec) :
  (forall a b, a < b -> g a < g b) -> same_order (map g fits) fits.
Proof.
  intros Hg. split; [apply length_map|].
  rewrite length_map. intros i j Hi Hj. rewrite !key_map by assumption.
  split; [|apply Hg].
  intros Hlt. destruct (Rlt_le_dec (key fits i) (key fits j)) as [H|H]; [exact H|].
  exfalso. destruct H as [H|H].
  - apply Hg in H. lra.
  - rewrite H in Hlt. lra.
Qed.

Lemma select_and_weight_of_ranking (A : ArgSort) (mu : nat) (N : matrix) (fits1 fits2 : vec) :
  A fits1 = A fits2 ->
  select_and_weight A mu N fits1 = select_and_weight A mu N fits2.
Proof.
  intros E. unfold select_and_weight. rewrite E. reflexivity.
Qed.

(** C6: the step is a function of the ranking only.  Two fitness assignments
    to the same population for which [np.argsort] returns the same ranking,
    and in particular two assignments whose entries compare alike (the same
    pairs in strict order, the same ties), give the same step; so does a
    fitness transformed by a strictly increasing function. *)
Theorem select_and_weight_rank_only :
  forall (np_argsort : ArgSort) (mu : nat) (N : matrix) (fits : vec),
    (forall fits', np_argsort fits' = np_argsort fits ->
       select_and_weight np_argsort mu N fits' = select_and_weight np_argsort mu N fits) /\
    (forall fits', same_order fits' fits ->
       select_and_weight np_argsort mu N fits' = select_and_weight np_argsort mu N fits) /\
    (forall g : R -> R, (forall a b, a < b -> g a < g b) ->
       select_and_weight np_argsort mu N (map g fits) = select_and_weight np_argsort mu N fits).
Proof.
  intros A mu N fits. split; [|split].
  - intros fits' E. apply select_and_weight_of_ranking, E.
  - intros fits' H. apply select_and_weight_of_ranking, argsort_comparisons, H.
  - intros g Hg.
    apply select_and_weight_of_ranking, argsort_comparisons, increasing_same_order, Hg.
Qed.

Lemma select_and_weight_rank_only_witness :
  select_and_weight reversing_argsort 1 [[1; 0]; [0; 1]] (map (fun a => 2 * a + 1) [3; 3]) =
  select_and_weight reversing_argsort 1 [[1; 0]; [0; 1]] [3; 3].
Proof.
  destruct (select_and_weight_rank_only reversing_argsort 1 [[1; 0]; [0; 1]] [3; 3])
    as [_ [_ H]].
  apply (H (fun a => 2 * a + 1)). intros a b Hab. lra.
Defined.

(** ** The combined strategy never worsens [x_best] *)

Section BestTracking.

Variable f : vec -> R.
Variable alpha : R.

Lemma track_best_le (x0 best Ni : vec) :
  f (ES.track_best f x0 best Ni) <= f best.
Proof.
  unfold ES.track_best.
  destruct (Rlt_dec (f (vadd x0 Ni)) (f best)); lra.
Qed.

Lemma fold_track_best_le (x0 : vec) (N : matrix) (best : vec) :
  f (fold_left (ES.track_best f x0) N best) <= f best.
Proof.
  revert best. induction N as [|Ni N IH]; intros best; simpl; [lra|].
  eapply Rle_trans; [apply IH | apply track_best_le].
Qed.

Lemma generation_le (st : ES.state) (N : matrix) :
  f (ES.x_best (ES.generation f alpha st N)) <= f (ES.x_best st).
Proof.
  unfold ES.generation. simpl. apply fold_track_best_le.
Qed.

Lemma run_le (draws : list matrix) (st : ES.state) :
  f (ES.x_best (ES.run f alpha st draws)) <= f (ES.x_best st).
Proof.
  unfold ES.run. revert st.
  induction draws as [|N draws IH]; intros st; simpl; [lra|].
  eapply Rle_trans; [apply IH | apply generation_le].
Qed.

End BestTracking.

(** C9: in the combined strategy the fitness of [x_best] never increases:
    it is no larger after a generation than before it, so along a run it is
    no larger after any number of generations than after fewer of them, and
    never larger than at the start. *)
Theorem x_best_fitness_non_increasing :
  forall (f : vec -> R) (alpha : R) (st : ES.state),
    (forall N : matrix,
       f (ES.x_best (ES.generation f alpha st N)) <= f (ES.x_best st)) /\
    (forall earlier later : list matrix,
       f (ES.x_best (ES.run f alpha st (earlier ++ later))) <=
       f (ES.x_best (ES.run f alpha st earlier))) /\
    (forall draws : list matrix,
       f (ES.x_best (ES.run f alpha st draws)) <= f (ES.x_best st)).
Proof.
  intros f alpha st. split; [|split].
  - intros N. apply generation_le.
  - intros earlier later. unfold ES.run at 1. rewrite fold_left_app.
    apply (run_le f alpha later).
  - intros draws. apply run_le.
Qed.

(** ** The sampling transform *)

Lemma np_sqrt_nonneg (a : R) : 0 <= a -> np_sqrt a = Some (sqrt a).
Proof.
  intros Ha. unfold np_sqrt. destruct (Rlt_dec a 0); [lra | reflexivity].
Qed.

Lemma np_sqrt_negative (a : R) : a < 0 -> np_sqrt a = None.
Proof.
  intros Ha. unfold np_sqrt. destruct (Rlt_dec a 0); [reflexivity | lra].
Qed.

Lemma map_np_sqrt (e : vec) :
  Forall (fun ev => 0 <= ev) e -> map np_sqrt e = map Some (map sqrt e).
Proof.
  induction 1 as [|ev e Hev He IH]; simpl; [reflexivity|].
  rewrite np_sqrt_nonneg, IH by exact Hev. reflexivity.
Qed.

Lemma zip_fmul_some (u v : vec) :
  zip_with fmul (map Some u) (map Some v) = map Some (vmul u v).
Proof.
  revert v. induction u as [|a u IH]; intros [|b v]; simpl; try reflexivity.
  unfold vmul in *. simpl. rewrite IH. reflexivity.
Qed.

Lemma zip_fadd_some (u v : vec) :
  zip_with fadd (map Some u) (map Some v) = map Some (vadd u v).
Proof.
  revert v. induction u as [|a u IH]; intros [|b v]; simpl; try reflexivity.
  unfold vadd in *. simpl. rewrite IH. reflexivity.
Qed.

Lemma fdot_some (u v : vec) : fdot (map Some u) (map Some v) = Some (dot u v).
Proof.
  unfold fdot, dot. rewrite zip_fmul_some.
  induction (vmul u v) as [|a w IH]; simpl; [reflexivity|].
  rewrite IH. reflexivity.
Qed.

Lemma dot_vmul_assoc (u d z : vec) : dot u (vmul d z) = dot (vmul u d) z.
Proof.
  unfold dot, vmul, sum. revert d z.
  induction u as [|a u IH]; intros [|b d] [|c z]; simpl; try reflexivity.
  rewrite IH. lra.
Qed.

Lemma dot_sqrt_sqrt (u v e : vec) :
  Forall (fun ev => 0 <= ev) e ->
  dot (vmul u (map sqrt e)) (vmul v (map sqrt e)) = dot (vmul u e) v.
Proof.
  intros He. revert u v. unfold dot, vmul, sum.
  induction He as [|ev e Hev He IH]; intros [|a u] [|b v]; simpl; try reflexivity.
  rewrite IH. pose proof (sqrt_sqrt ev Hev). nra.
Qed.

Lemma transform_psd (e : vec) (Q : matrix) (z : vec) :
  Forall (fun ev => 0 <= ev) e ->
  transform e Q z = map Some (matvec (mul_diag Q (map sqrt e)) z).
Proof.
  intros He. unfold transform, matvec, mul_diag.
  rewrite !map_map. apply map_ext. intros row.
  rewrite map_np_sqrt, zip_fmul_some, fdot_some by exact He.
  rewrite dot_vmul_assoc. reflexivity.
Qed.

Lemma sample_psd (eig : matrix -> option (vec * matrix))
    (x : vec) (C N : matrix) (e : vec) (Q : matrix) :
  eig C = Some (e, Q) ->
  Forall (fun ev => 0 <= ev) e ->
  sample eig x C N =
  Returned (map (vadd x) N,
            map (fun z => map Some (vadd x (matvec (mul_diag Q (map sqrt e)) z))) N).
Proof.
  intros Heig He. unfold sample. rewrite Heig. do 2 f_equal.
  apply map_ext. intros z. rewrite transform_psd by exact He.
  apply zip_fadd_some.
Qed.

Lemma mmul_T_sqrt (e : vec) (Q : matrix) :
  Forall (fun ev => 0 <= ev) e ->
  mmul_T (mul_diag Q (map sqrt e)) (mul_diag Q (map sqrt e)) = mmul_T (mul_diag Q e) Q.
Proof.
  intros He. unfold mmul_T, mul_diag. rewrite !map_map.
  apply map_ext. intros u. rewrite map_map. apply map_ext. intros v.
  apply dot_sqrt_sqrt, He.
Qed.

Ltac array_eq :=
  cbn; repeat first [reflexivity | lra | apply (f_equal2 cons)].

(** ** Negative eigenvalues: NaN, no exception *)

Lemma fadd_None_r (a : option R) : fadd a None = None.
Proof. destruct a; reflexivity. Qed.

Lemma fmul_None_r (a : option R) : fmul a None = None.
Proof. destruct a; reflexivity. Qed.

Lemma fdot_nan (row e z : vec) :
  length row = length e -> length z = length e ->
  Exists (fun ev => ev < 0) e ->
  fdot (map Some row) (zip_with fmul (map np_sqrt e) (map Some z)) = None.
Proof.
  intros Hrow Hz Hneg. revert row z Hrow Hz. unfold fdot.
  induction Hneg as [ev e Hev | ev e Hneg IH]; intros [|a row] [|c z] Hrow Hz;
    simpl in *; try discriminate.
  - rewrite np_sqrt_negative by exact Hev. reflexivity.
  - rewrite IH by lia. apply fadd_None_r.
Qed.

Lemma zip_fadd_nan (u v : list (option R)) :
  Forall (fun c => c = None) v -> Forall (fun c => c = None) (zip_with fadd u v).
Proof.
  intros Hv. revert u. induction Hv as [|c v Hc Hv IH]; intros [|a u]; simpl;
    constructor.
  - subst c. apply fadd_None_r.
  - apply IH.
Qed.

Lemma transform_nan (e : vec) (Q : matrix) (z : vec) :
  Forall (fun row => length row = length e) Q -> length z = length e ->
  Exists (fun ev => ev < 0) e ->
  Forall (fun c => c = None) (transform e Q z).
Proof.
  intros HQ Hz Hneg. unfold transform. rewrite Forall_map.
  eapply Forall_impl; [|exact HQ]. intros row Hrow. simpl.
  apply fdot_nan; assumption.
Qed.

Lemma sample_no_invalid_covariance (eig : matrix -> option (vec * matrix))
    (x : vec) (C N : matrix) :
  ~ raises InvalidCovarianceError (sample eig x C N).
Proof.
  unfold raises, sample. destruct (eig C) as [[e Q]|]; intros H; [discriminate|].
  injection H as H. discriminate.
Qed.

(** C2: the cell signals no [InvalidCovarianceError] on any input.  When
    [np.linalg.eig] returns [(e, Q)] the cell returns; with no negative
    eigenvalue its points are finite, [x + Q (sqrt(e) * z)]; with a negative
    eigenvalue (and [Q] and the draws of the dimension of [e]) every
    coordinate of every point is NaN: the negative eigenvalue is neither
    reported nor clamped. *)
Theorem sample_never_signals_invalid_covariance :
  forall (np_linalg_eig : matrix -> option (vec * matrix)) (x : vec) (C N : matrix),
    ~ raises InvalidCovarianceError (sample np_linalg_eig x C N) /\
    forall e Q, np_linalg_eig C = Some (e, Q) ->
      exists x_C,
        sample np_linalg_eig x C N = Returned (map (vadd x) N, x_C) /\
        length x_C = length N /\
        (Forall (fun ev => 0 <= ev) e ->
         x_C = map (fun z => map Some (vadd x (matvec Q (vmul (map sqrt e) z)))) N) /\
        (Exists (fun ev => ev < 0) e ->
         Forall (fun row => length row = length e) Q ->
         Forall (fun z => length z = length e) N ->
         all_nan x_C).
Proof.
  intros eig x C N. split; [apply sample_no_invalid_covariance|].
  intros e Q Heig. eexists. split; [unfold sample; rewrite Heig; reflexivity|].
  split; [apply length_map|]. split.
  - intros He. apply map_ext. intros z. rewrite transform_psd by exact He.
    rewrite zip_fadd_some. do 2 f_equal.
    unfold matvec, mul_diag. rewrite map_map.
    apply map_ext. intros row. symmetry. apply dot_vmul_assoc.
  - intros Hneg HQ HN. unfold all_nan. rewrite Forall_map.
    eapply Forall_impl; [|exact HN]. intros z Hz. simpl.
    apply zip_fadd_nan, transform_nan; assumption.
Qed.

Lemma sample_never_signals_invalid_covariance_witness :
  ~ raises InvalidCovarianceError (sample eig_diagonal [0; 0] [[-1; 0]; [0; 1]] [[1; 1]]) /\
  exists x_C,
    sample eig_diagonal [0; 0] [[-1; 0]; [0; 1]] [[1; 1]] =
    Returned (map (vadd [0; 0]) [[1; 1]], x_C) /\
    all_nan x_C.
Proof.
  destruct (sample_never_signals_invalid_covariance
              eig_diagonal [0; 0] [[-1; 0]; [0; 1]] [[1; 1]]) as [Hno Hret].
  split; [exact Hno|].
  destruct (Hret [-1; 1] (eye 2) eq_refl) as [x_C [Hs [_ [_ Hnan]]]].
  exists x_C. split; [exact Hs|].
  apply Hnan.
  - left. lra.
  - repeat constructor.
  - repeat constructor.
Defined.

(** C2, as stated, fails: the covariance [diag(-1, 1)] has the eigenvalue
    [-1], below [-epsilon] for [epsilon = 1/1000], and the cell returns
    (points with NaN coordinates) instead of raising. *)
Lemma sample_negative_eigenvalue_counterexample :
  has_eigenvalue_below eig_diagonal [[-1; 0]; [0; 1]] (- (1 / 1000)) /\
  sample eig_diagonal [0; 0] [[-1; 0]; [0; 1]] [[1; 1]] =
  Returned ([[1; 1]], [[None; None]]) /\
  ~ (raises InvalidCovarianceError (sample eig_diagonal [0; 0] [[-1; 0]; [0; 1]] [[1; 1]]) <->
     has_eigenvalue_below eig_diagonal [[-1; 0]; [0; 1]] (- (1 / 1000))).
Proof.
  assert (Hev : has_eigenvalue_below eig_diagonal [[-1; 0]; [0; 1]] (- (1 / 1000))).
  { exists [-1; 1], (eye 2). split; [reflexivity|]. left. lra. }
  split; [exact Hev|]. split.
  - unfold sample, eig_diagonal, transform, fdot. cbn.
    rewrite np_sqrt_negative by lra. cbn.
    do 2 f_equal. unfold vadd. cbn. array_eq.
  - intros [_ H]. apply (sample_no_invalid_covariance _ _ _ _ (H Hev)).
Qed.

(** * The other cells of the notebook *)

(** [x = np.random.rand(2) * 4 - 2], on the uniform draws [u] of
    [np.random.rand], each in [[0, 1)]. *)
Definition initial_point (u : vec) : vec := map (fun a => a * 4 - 2) u.

(** [x_t = x + N], also written
    [np.array([x + np.random.normal(size=(2,)) for i in range(20)])]. *)
Definition population (x : vec) (N : matrix) : matrix := map (vadd x) N.

(** [fits = himmelblau(x_t[:, 0], x_t[:, 1])] *)
Definition evaluate (x_t : matrix) : vec :=
  map (fun row => himmelblau (nth 0 row 0) (nth 1 row 0)) x_t.

(** [A = (fits - np.mean(fits)) / np.std(fits)], on fitness values whose
    [np.std] is not 0 (the cell divides by it). *)
Definition normalized_fitness (fits : vec) : vec :=
  map (fun F => (F - mean fits) / std fits) fits.

(** [np.dot(A, N)] on a one-dimensional [A] and a two-dimensional [N] with
    [n] columns: the sum of the rows of [N], row [i] scaled by [A_i]. *)
Definition vecmat (n : nat) (A : vec) (N : matrix) : vec :=
  sum_axis0 n (zip_with vscale A N).

(** [G = -np.dot(A, N) / lam] (the first notebook writes the population
    size, 10, for [lam]). *)
Definition gradient (n lam : nat) (fits : vec) (N : matrix) : vec :=
  let A := normalized_fitness fits in
  map (fun c => - c / INR lam) (vecmat n A N).

(** The quadratic form [v^T C v]. *)
Definition quadratic_form (C : matrix) (v : vec) : R := dot v (matvec C v).

(** Positive semi-definite, on vectors of dimension [n]. *)
Definition psd (n : nat) (C : matrix) : Prop :=
  forall v, length v = n -> 0 <= quadratic_form C v.


(** Column [k] of a two-dimensional array: [Q[:, k]]. *)
Definition column (Q : matrix) (k : nat) : vec := map (fun row => nth k row 0) Q.

(** What NumPy documents of [w, v = np.linalg.eig(C)]: [v[:, k]] has unit
    length and [C @ v[:, k] = w[k] * v[:, k]]. *)
Definition eigenpairs (C : matrix) (e : vec) (Q : matrix) : Prop :=
  forall k, (k < length e)%nat ->
    matvec C (column Q k) = vscale (nth k e 0) (column Q k) /\
    dot (column Q k) (column Q k) = 1.

(** ** The (1+1) and the (1+lambda) evolutionary strategies (pseudocode)

    [while not terminate]
    [    x' = x + N(0, 1)]
    [    if f(x') < f(x)]
    [        x = x']

    [while not terminate]
    [    x_p = x]
    [    for i in [1,lam]]
    [        x_i = x_p + N(0, 1)]
    [        if f(x_i) < f(x)]
    [            x = x_i]
    [    x_p = x]
    [return x_p] *)

Module PlusES.

Section Strategy.

Variable f : vec -> R.

(** One pass of the (1+1) loop on the draw [n]. *)
Definition one_plus_one_step (x n : vec) : vec :=
  let x' := vadd x n in
  if Rlt_dec (f x') (f x) then x' else x.

Definition one_plus_one (x : vec) (draws : matrix) : vec :=
  fold_left one_plus_one_step draws x.

(** One pass of the [for] loop of the (1+lambda) strategy. *)
Definition offspring (x_p x Ni : vec) : vec :=
  let x_i := vadd x_p Ni in
  if Rlt_dec (f x_i) (f x) then x_i else x.

(** One pass of the [while] loop: the next parent. *)
Definition generation (x : vec) (N : matrix) : vec :=
  let x_p := x in
  fold_left (offspring x_p) N x.

Definition run (x : vec) (draws : list matrix) : vec :=
  fold_left generation draws x.

End Strategy.

End PlusES.

(** ** The objective and the start point *)

(** X1: the objective vanishes exactly where both squared terms do; [(3, 2)] is
    such a point, so 0 is the minimum of the objective and it is attained. *)
Theorem himmelblau_zero_iff :
  (forall x y : R,
     himmelblau x y = 0 <-> (x ^ 2 + y = 11 /\ x + y ^ 2 = 7)) /\
  himmelblau 3 2 = 0 /\
  forall x y : R, himmelblau 3 2 <= himmelblau x y.
Proof.
  split; [|split].
  - intros x y. unfold himmelblau. split.
    + intros H.
      pose proof (pow2_ge_0 (x ^ 2 + y - 11)) as H1.
      pose proof (pow2_ge_0 (x + y ^ 2 - 7)) as H2.
      assert (E1 : (x ^ 2 + y - 11) ^ 2 = 0) by lra.
      assert (E2 : (x + y ^ 2 - 7) ^ 2 = 0) by lra.
      assert (Z1 : x ^ 2 + y - 11 = 0) by nra.
      assert (Z2 : x + y ^ 2 - 7 = 0) by nra.
      lra.
    + intros [E1 E2].
      replace (x ^ 2 + y - 11) with 0 by lra.
      replace (x + y ^ 2 - 7) with 0 by lra. lra.
  - unfold himmelblau. lra.
  - intros x y. replace (himmelblau 3 2) with 0 by (unfold himmelblau; lra).
    unfold himmelblau. apply Rplus_le_le_0_compat; apply pow2_ge_0.
Qed.

(** X2: the start point has one coordinate per draw, each in [[-2, 2)]. *)
Theorem initial_point_in_box :
  forall u : vec,
    Forall (fun a => 0 <= a < 1) u ->
    length (initial_point u) = length u /\
    Forall (fun c => -2 <= c < 2) (initial_point u).
Proof.
  intros u Hu. unfold initial_point. split; [apply length_map|].
  rewrite Forall_map. eapply Forall_impl; [|exact Hu].
  intros a Ha. simpl in *. lra.
Qed.

Lemma initial_point_in_box_witness :
  length (initial_point [0; 1 / 2]) = 2%nat /\
  Forall (fun c => -2 <= c < 2) (initial_point [0; 1 / 2]).
Proof.
  apply (initial_point_in_box [0; 1 / 2]).
  repeat constructor; lra.
Defined.

(** ** Sums *)

Lemma sum_map_scale {A : Type} (g : A -> R) (c : R) (l : list A) :
  sum (map (fun a => c * g a) l) = c * sum (map g l).
Proof.
  unfold sum. induction l as [|a l IH]; simpl; [lra|]. rewrite IH. lra.
Qed.

(** ** The step of the combined strategy is a gradient step *)

Lemma sum_axis0_length (n : nat) (rows : matrix) :
  Forall (fun row => length row = n) rows -> length (sum_axis0 n rows) = n.
Proof.
  unfold sum_axis0. induction 1 as [|r rows Hr Hrows IH]; simpl.
  - apply zeros_length.
  - unfold vadd at 1. rewrite zip_with_length, IH, Hr. apply Nat.min_id.
Qed.

Lemma scaled_rows_length (n : nat) (A : vec) (rows : matrix) :
  Forall (fun row => length row = n) rows ->
  Forall (fun row => length row = n) (zip_with vscale A rows).
Proof.
  intros H. revert A. induction H as [|r rows Hr Hrows IH]; intros [|a A]; simpl;
    constructor.
  - rewrite vscale_length. exact Hr.
  - apply IH.
Qed.

Lemma minus_step_plus_gradient (alpha l : R) (x v : vec) :
  zip_with Rminus x (vscale alpha (map (fun c => c / l) v)) =
  vadd x (vscale alpha (map (fun c => - c / l) v)).
Proof.
  unfold vadd, vscale. revert v.
  induction x as [|a x IH]; intros [|b v]; simpl; try reflexivity.
  rewrite IH. f_equal. unfold Rdiv. ring.
Qed.

(** X6: the [x] of the combined strategy moves by [alpha] times the gradient
    estimate [G] of the gradient cell, computed from the fitness of the
    points [x + N] and the draws [N]; with draws of the dimension of [x] the
    new [x] has that dimension. *)
Theorem generation_is_gradient_step :
  forall (f : vec -> R) (alpha : R) (st : ES.state) (N : matrix),
    ES.x (ES.generation f alpha st N) =
    update_mean (ES.x st)
      (vscale alpha
         (gradient (length (ES.x st)) (length N)
                   (map f (population (ES.x st) N)) N)) /\
    (Forall (fun Ni => length Ni = length (ES.x st)) N ->
     length (ES.x (ES.generation f alpha st N)) = length (ES.x st)).
Proof.
  intros f alpha st N. split.
  - unfold ES.generation, update_mean, gradient, vecmat, normalized_fitness, population.
    cbn [ES.x]. rewrite !map_map. apply minus_step_plus_gradient.
  - intros HN. unfold ES.generation. cbn [ES.x].
    rewrite zip_with_length, vscale_length, length_map.
    rewrite sum_axis0_length by (apply scaled_rows_length, HN). lia.
Qed.

Lemma generation_is_gradient_step_witness :
  length (ES.x (ES.generation (fun v => himmelblau (nth 0 v 0) (nth 1 v 0)) 1
                  (ES.init [0; 0]) [[1; 0]; [0; 1]])) = 2%nat.
Proof.
  destruct (generation_is_gradient_step
              (fun v => himmelblau (nth 0 v 0) (nth 1 v 0)) 1
              (ES.init [0; 0]) [[1; 0]; [0; 1]]) as [_ H].
  apply H. repeat constructor.
Defined.

(** ** Keeping the best point *)

Section KeepBest.

Variable f : vec -> R.
Variable candidate : vec -> vec.

(** The shape shared by the loops that keep a best point: a candidate
    replaces the point kept when its fitness is strictly lower. *)
Definition keep_better (best Ni : vec) : vec :=
  if Rlt_dec (f (candidate Ni)) (f best) then candidate Ni else best.

Lemma keep_better_le (best Ni : vec) :
  f (keep_better best Ni) <= f best /\ f (keep_better best Ni) <= f (candidate Ni).
Proof.
  unfold keep_better. destruct (Rlt_dec (f (candidate Ni)) (f best)); lra.
Qed.

Lemma fold_keep_better (N : matrix) (best : vec) :
  f (fold_left keep_better N best) <= f best /\
  (forall Ni, In Ni N -> f (fold_left keep_better N best) <= f (candidate Ni)) /\
  (fold_left keep_better N best = best \/
   exists Ni, In Ni N /\ fold_left keep_better N best = candidate Ni).
Proof.
  revert best. induction N as [|Nj N IH]; intros best; simpl.
  - split; [lra|]. split; [intros Ni []|]. left. reflexivity.
  - destruct (IH (keep_better best Nj)) as [Hle [Hall Hin]].
    destruct (keep_better_le best Nj) as [Hb Hc].
    split; [lra|]. split.
    + intros Ni [<-|Hi]; [lra | apply Hall, Hi].
    + destruct Hin as [E|[Ni [Hi E]]].
      * rewrite E. unfold keep_better.
        destruct (Rlt_dec (f (candidate Nj)) (f best)).
        -- right. exists Nj. split; [left|]; reflexivity.
        -- left. reflexivity.
      * right. exists Ni. split; [right; exact Hi | exact E].
Qed.

End KeepBest.

(** X7: after a generation of the combined strategy [x_best] is the old
    [x_best] or one of the points [x + N_i] sampled in the generation, and
    its fitness is at most that of every one of them. *)
Theorem x_best_is_best_seen :
  forall (f : vec -> R) (alpha : R) (st : ES.state) (N : matrix),
    (ES.x_best (ES.generation f alpha st N) = ES.x_best st \/
     exists Ni, In Ni N /\
       ES.x_best (ES.generation f alpha st N) = vadd (ES.x st) Ni) /\
    forall Ni, In Ni N ->
      f (ES.x_best (ES.generation f alpha st N)) <= f (vadd (ES.x st) Ni).
Proof.
  intros f alpha st N.
  destruct (fold_keep_better f (vadd (ES.x st)) N (ES.x_best st)) as [_ [Hall Hin]].
  split; [exact Hin | exact Hall].
Qed.

(** [himmelblau(x[0], x[1])], the objective on a point. *)
Definition himmelblau_at (v : vec) : R := himmelblau (nth 0 v 0) (nth 1 v 0).

Lemma x_best_is_best_seen_witness :
  himmelblau_at (ES.x_best (ES.generation himmelblau_at 1 (ES.init [0; 0]) [[3; 2]; [1; 1]]))
  <= himmelblau_at (vadd [0; 0] [3; 2]).
Proof.
  destruct (x_best_is_best_seen himmelblau_at 1 (ES.init [0; 0]) [[3; 2]; [1; 1]])
    as [_ H].
  apply H. left. reflexivity.
Defined.

(** ** The (1+lambda) strategy *)

Lemma plus_generation_best (f : vec -> R) (x : vec) (N : matrix) :
  f (PlusES.generation f x N) <= f x /\
  (forall Ni, In Ni N -> f (PlusES.generation f x N) <= f (vadd x Ni)) /\
  (PlusES.generation f x N = x \/
   exists Ni, In Ni N /\ PlusES.generation f x N = vadd x Ni).
Proof.
  apply (fold_keep_better f (vadd x) N x).
Qed.

Lemma plus_run_le (f : vec -> R) (draws : list matrix) (x : vec) :
  f (PlusES.run f x draws) <= f x.
Proof.
  unfold PlusES.run. revert x.
  induction draws as [|N draws IH]; intros x; simpl; [lra|].
  eapply Rle_trans; [apply IH | apply plus_generation_best].
Qed.

(** X8: the (1+lambda) strategy is elitist: the next parent is the parent or one
    of its [lam] offspring [x + N_i], its fitness is at most that of the
    parent and of every offspring, and over a run the fitness of the parent
    never increases. *)
Theorem plus_lambda_elitist :
  forall (f : vec -> R) (x : vec) (N : matrix),
    f (PlusES.generation f x N) <= f x /\
    (forall Ni, In Ni N -> f (PlusES.generation f x N) <= f (vadd x Ni)) /\
    (PlusES.generation f x N = x \/
     exists Ni, In Ni N /\ PlusES.generation f x N = vadd x Ni) /\
    forall draws : list matrix, f (PlusES.run f x draws) <= f x.
Proof.
  intros f x N. destruct (plus_generation_best f x N) as [H1 [H2 H3]].
  repeat split; try assumption.
  intros draws. apply plus_run_le.
Qed.

Lemma plus_lambda_elitist_witness :
  himmelblau_at (PlusES.generation himmelblau_at [0; 0] [[1; 1]; [3; 2]])
  <= himmelblau_at (vadd [0; 0] [3; 2]).
Proof.
  destruct (plus_lambda_elitist himmelblau_at [0; 0] [[1; 1]; [3; 2]])
    as [_ [H _]].
  apply H. right. left. reflexivity.
Defined.

(** X9: the (1+1) strategy is the (1+lambda) strategy with one offspring per
    generation, and in the first generation of the combined strategy
    [x_best] is the next parent of the (1+lambda) strategy on the same
    draws. *)
Theorem one_plus_one_is_plus_lambda :
  forall (f : vec -> R) (x : vec),
    (forall draws : matrix,
       PlusES.one_plus_one f x draws =
       PlusES.run f x (map (fun n => [n]) draws)) /\
    (forall (alpha : R) (N : matrix),
       ES.x_best (ES.generation f alpha (ES.init x) N) = PlusES.generation f x N).
Proof.
  intros f x. split.
  - intros draws. unfold PlusES.one_plus_one, PlusES.run. revert x.
    induction draws as [|n draws IH]; intros x; simpl; [reflexivity|].
    apply IH.
  - intros alpha N. reflexivity.
Qed.

(** ** The weights, strictly *)

Lemma weights_1 : weights 1 = [1].
Proof.
  unfold weights, log_weights. cbn [seq map sum fold_right].
  pose proof (log_weight_pos 1 1 (conj (le_n 1) (le_n 1))) as H.
  f_equal. field. lra.
Qed.

(** X10: for [mu >= 1] every weight is strictly positive and the weights strictly
    decrease with the rank; for [mu = 1] the only weight is 1. *)
Theorem weights_strictly_decreasing :
  forall mu : nat,
    (1 <= mu)%nat ->
    (forall i, (i < mu)%nat -> 0 < nth i (weights mu) 0) /\
    (forall i j, (i < j < mu)%nat -> nth j (weights mu) 0 < nth i (weights mu) 0) /\
    (mu = 1%nat -> weights mu = [1]).
Proof.
  intros mu Hmu. pose proof (log_weights_sum_pos mu Hmu) as HS.
  split; [|split].
  - intros i Hi. rewrite nth_weights by exact Hi.
    apply Rdiv_lt_0_compat; [apply log_weight_pos; lia | exact HS].
  - intros i j [Hij Hj]. rewrite !nth_weights by lia.
    assert (Hln : ln (INR (S i)) < ln (INR (S j)))
      by (apply ln_increasing; [apply lt_0_INR; lia | apply lt_INR; lia]).
    unfold Rdiv. apply Rmult_lt_compat_r; [apply Rinv_0_lt_compat, HS | lra].
  - intros ->. exact weights_1.
Qed.

Lemma weights_strictly_decreasing_witness :
  (forall i, (i < 3)%nat -> 0 < nth i (weights 3) 0) /\
  (forall i j, (i < j < 3)%nat -> nth j (weights 3) 0 < nth i (weights 3) 0) /\
  (3%nat = 1%nat -> weights 3 = [1]).
Proof.
  apply (weights_strictly_decreasing 3). lia.
Defined.

(** ** The selection *)

Lemma sorted_app_le {A : Type} (Rel : A -> A -> Prop) (l1 l2 : list A) :
  StronglySorted Rel (l1 ++ l2) ->
  forall a b, In a l1 -> In b l2 -> Rel a b.
Proof.
  induction l1 as [|c l1 IH]; intros Hs a b Ha Hb; [destruct Ha|].
  simpl in Hs. inversion Hs as [|? ? Hs' Hc]; subst.
  destruct Ha as [->|Ha].
  - rewrite Forall_forall in Hc. apply Hc, in_or_app. right. exact Hb.
  - apply IH; assumption.
Qed.

(** X11: the [mu] indices the cell selects, [sorted_ids[:mu]], are
    [min(mu, lam)] distinct members of the population, and no member left
    out has a lower fitness than a selected one. *)
Theorem selection_is_top_mu :
  forall (np_argsort : ArgSort) (mu : nat) (fits : vec),
    length (firstn mu (np_argsort fits)) = Nat.min mu (length fits) /\
    NoDup (firstn mu (np_argsort fits)) /\
    (forall i, In i (firstn mu (np_argsort fits)) -> (i < length fits)%nat) /\
    (forall i j, In i (firstn mu (np_argsort fits)) ->
       (j < length fits)%nat -> ~ In j (firstn mu (np_argsort fits)) ->
       key fits i <= key fits j).
Proof.
  intros A mu fits.
  pose proof (firstn_skipn mu (A fits)) as Esplit.
  split; [rewrite length_firstn, argsort_length; reflexivity|]. split; [|split].
  - pose proof (argsort_NoDup A fits) as Hnd. rewrite <- Esplit in Hnd.
    apply NoDup_app_remove_r in Hnd. exact Hnd.
  - intros i Hi. apply (argsort_in A). rewrite <- Esplit.
    apply in_or_app. left. exact Hi.
  - intros i j Hi Hj Hnot.
    assert (Hin : In j (skipn mu (A fits))).
    { apply (argsort_in A) in Hj. rewrite <- Esplit in Hj.
      apply in_app_or in Hj. destruct Hj as [Hj|Hj]; [contradiction | exact Hj]. }
    pose proof (argsort_ascending A fits) as Hs. unfold ascending in Hs.
    rewrite <- Esplit in Hs.
    apply (sorted_app_le _ _ _ Hs i j Hi Hin).
Qed.

Lemma selection_is_top_mu_witness :
  key [3; 1; 2] 1 <= key [3; 1; 2] 0.
Proof.
  destruct (selection_is_top_mu stable_argsort 1 [3; 1; 2]) as [_ [_ [_ H]]].
  assert (E : stable_argsort [3; 1; 2] = [1%nat; 2%nat; 0%nat]).
  { change (stable_argsort [3; 1; 2]) with
      (insert_index (le_before [3; 1; 2]) 0
         (insert_index (le_before [3; 1; 2]) 1
            (insert_index (le_before [3; 1; 2]) 2 []))).
    unfold le_before, key.
    repeat (cbn; match goal with
                 | |- context [Rle_dec ?a ?b] => destruct (Rle_dec a b); try lra
                 end).
    reflexivity. }
  apply H.
  - rewrite E. left. reflexivity.
  - simpl. lia.
  - rewrite E. simpl. intros [H0|[]]. discriminate.
Defined.

(** ** The step: its dimension, and the case [mu = 1] *)

Lemma take_rows_length (n : nat) (N : matrix) (ids : list nat) :
  Forall (fun row => length row = n) N ->
  (forall i, In i ids -> (i < length N)%nat) ->
  Forall (fun row => length row = n) (take_rows N ids).
Proof.
  intros HN Hids. unfold take_rows. rewrite Forall_map.
  apply Forall_forall. intros i Hi. rewrite Forall_forall in HN.
  apply HN, nth_In, Hids, Hi.
Qed.

(** X12: for a population of [lam] offsets of one dimension and
    [1 <= mu <= lam], the step has that dimension. *)
Theorem select_and_weight_dimension :
  forall (np_argsort : ArgSort) (mu : nat) (N : matrix) (fits : vec),
    (1 <= mu <= length fits)%nat ->
    length N = length fits ->
    Forall (fun row => length row = ncols N) N ->
    length (select_and_weight np_argsort mu N fits) = ncols N.
Proof.
  intros A mu N fits _ Hlen HN. unfold select_and_weight, mean_axis0.
  rewrite length_map. apply sum_axis0_length, scaled_rows_length.
  apply take_rows_length; [exact HN|].
  intros i Hi. rewrite Hlen. apply (argsort_in A).
  rewrite <- (firstn_skipn mu (A fits)). apply in_or_app. left. exact Hi.
Qed.

Lemma select_and_weight_dimension_witness :
  length (select_and_weight reversing_argsort 2 [[1; 0]; [0; 1]; [1; 1]] [5; 5; 4]) =
  ncols [[1; 0]; [0; 1]; [1; 1]].
Proof.
  apply (select_and_weight_dimension reversing_argsort 2 [[1; 0]; [0; 1]; [1; 1]] [5; 5; 4]).
  - simpl. lia.
  - reflexivity.
  - repeat constructor.
Defined.

Lemma vscale_1 (u : vec) : vscale 1 u = u.
Proof.
  unfold vscale. rewrite <- (map_id u) at 2. apply map_ext. intros a. lra.
Qed.

Lemma select_and_weight_best (np_argsort : ArgSort) (N : matrix) (fits x : vec) :
  (1 <= length fits)%nat ->
  length N = length fits ->
  Forall (fun row => length row = ncols N) N ->
  exists best,
    (best < length fits)%nat /\
    (forall j, (j < length fits)%nat -> key fits best <= key fits j) /\
    select_and_weight np_argsort 1 N fits = nth best N [] /\
    update_mean x (select_and_weight np_argsort 1 N fits) =
    nth best (population x N) [].
Proof.
  revert np_argsort N fits x. intros A N fits x Hlam Hlen HN.
  pose proof (argsort_length A fits) as HidsLen.
  pose proof (argsort_ascending A fits) as Hs. unfold ascending in Hs.
  pose proof (fun i => argsort_in A fits i) as Hin.
  unfold select_and_weight. rewrite weights_1.
  destruct (A fits) as [|best rest]; [simpl in HidsLen; lia|].
  assert (Hbest : (best < length fits)%nat) by (apply Hin; left; reflexivity).
  exists best. split; [exact Hbest|]. split.
  { intros j Hj. apply Hin in Hj. destruct Hj as [<-|Hj]; [lra|].
    inversion Hs as [|? ? _ Hall]; subst. rewrite Forall_forall in Hall.
    apply Hall, Hj. }
  assert (Hrow : length (nth best N []) = ncols N).
  { rewrite Forall_forall in HN. apply HN, nth_In. lia. }
  assert (Es : mean_axis0 (ncols N)
                 (zip_with vscale [1] (take_rows N (firstn 1 (best :: rest)))) =
               nth best N []).
  { cbn [firstn take_rows map zip_with]. unfold mean_axis0, sum_axis0.
    cbn [fold_right length]. rewrite vscale_1, <- Hrow, vadd_zeros_r.
    rewrite <- (map_id (nth best N [])) at 2. apply map_ext. intros c.
    simpl. field. }
  split; [exact Es|].
  rewrite Es. unfold update_mean, population. symmetry.
  apply nth_map_in_range. lia.
Qed.

(** X13: with [mu = 1] and a population of [lam >= 1] offsets of one dimension,
    the step is the offset of a member of lowest fitness, and [x = x + s]
    moves [x] onto that member's point [x_t = x + N]. *)
Theorem select_and_weight_mu_1 :
  forall (np_argsort : ArgSort) (N : matrix) (fits x : vec),
    (1 <= length fits)%nat ->
    length N = length fits ->
    Forall (fun row => length row = ncols N) N ->
    exists best,
      (best < length fits)%nat /\
      (forall j, (j < length fits)%nat -> key fits best <= key fits j) /\
      select_and_weight np_argsort 1 N fits = nth best N [] /\
      update_mean x (select_and_weight np_argsort 1 N fits) =
      nth best (population x N) [].
Proof.
  intros A N fits x. apply select_and_weight_best.
Qed.

Lemma select_and_weight_mu_1_witness :
  exists best,
    (best < length [5; 4])%nat /\
    (forall j, (j < length [5; 4])%nat -> key [5; 4] best <= key [5; 4] j) /\
    select_and_weight stable_argsort 1 [[1; 0]; [0; 1]] [5; 4] = nth best [[1; 0]; [0; 1]] [] /\
    update_mean [2; 2] (select_and_weight stable_argsort 1 [[1; 0]; [0; 1]] [5; 4]) =
    nth best (population [2; 2] [[1; 0]; [0; 1]]) [].
Proof.
  apply (select_and_weight_mu_1 stable_argsort [[1; 0]; [0; 1]] [5; 4] [2; 2]).
  - simpl. lia.
  - reflexivity.
  - repeat constructor.
Defined.

(** ** Quadratic forms of the covariance updates *)

Lemma dot_comm (u v : vec) : dot u v = dot v u.
Proof.
  unfold dot, vmul, sum. revert v.
  induction u as [|a u IH]; intros [|b v]; simpl; try reflexivity.
  rewrite IH. lra.
Qed.


Lemma dot_vscale_l (c : R) (u v : vec) : dot (vscale c u) v = c * dot u v.
Proof.
  unfold dot, vscale, vmul, sum. revert v.
  induction u as [|a u IH]; intros [|b v]; simpl; try lra.
  rewrite IH. lra.
Qed.



Lemma matvec_mscale (c : R) (A : matrix) (v : vec) :
  matvec (mscale c A) v = vscale c (matvec A v).
Proof.
  change (map (fun row => dot row v) (map (vscale c) A) =
          map (Rmult c) (map (fun row => dot row v) A)).
  rewrite !map_map. apply map_ext. intros row. apply dot_vscale_l.
Qed.



Lemma quadratic_form_mscale (c : R) (A : matrix) (v : vec) :
  quadratic_form (mscale c A) v = c * quadratic_form A v.
Proof.
  unfold quadratic_form. rewrite matvec_mscale, (dot_comm v), dot_vscale_l, (dot_comm _ v).
  reflexivity.
Qed.



(** ** The covariance the notebook builds *)


Lemma get_eye (n i j : nat) :
  (i < n)%nat -> (j < n)%nat -> get (eye n) i j = if Nat.eqb i j then 1 else 0.
Proof.
  intros Hi Hj. unfold get, eye.
  rewrite (nth_map_in_range _ _ i 0%nat) by (rewrite length_seq; exact Hi).
  rewrite (nth_map_in_range _ _ j 0%nat) by (rewrite length_seq; exact Hj).
  rewrite !seq_nth by assumption. reflexivity.
Qed.


Lemma dot_indicator_out (i s m : nat) (v : vec) :
  (i < s)%nat ->
  dot (map (fun j => if Nat.eqb i j then 1 else 0) (seq s m)) v = 0.
Proof.
  unfold dot, vmul, sum. revert s v.
  induction m as [|m IH]; intros s [|a v] Hi; simpl; try reflexivity.
  rewrite IH by lia.
  destruct (Nat.eqb_spec i s); [lia | lra].
Qed.

Lemma dot_indicator_in (i s m : nat) (v : vec) :
  (s <= i < s + m)%nat -> length v = m ->
  dot (map (fun j => if Nat.eqb i j then 1 else 0) (seq s m)) v = nth (i - s) v 0.
Proof.
  revert s v. induction m as [|m IH]; intros s [|a v] Hi Hv; simpl in *;
    try discriminate; try lia.
  change (dot ((if Nat.eqb i s then 1 else 0) ::
               map (fun j => if Nat.eqb i j then 1 else 0) (seq (S s) m)) (a :: v))
    with ((if Nat.eqb i s then 1 else 0) * a +
          dot (map (fun j => if Nat.eqb i j then 1 else 0) (seq (S s) m)) v).
  destruct (Nat.eqb_spec i s) as [->|Hne].
  - rewrite dot_indicator_out by lia. rewrite Nat.sub_diag. simpl. lra.
  - rewrite IH by lia.
    replace (i - s)%nat with (S (i - S s)) by lia. simpl. lra.
Qed.

Lemma map_nth_seq (v : vec) : map (fun i => nth i v 0) (seq 0 (length v)) = v.
Proof.
  induction v as [|a v IH]; simpl; [reflexivity|].
  f_equal. rewrite <- seq_shift, map_map. exact IH.
Qed.

Lemma matvec_eye (v : vec) : matvec (eye (length v)) v = v.
Proof.
  unfold matvec, eye. rewrite map_map.
  transitivity (map (fun i => nth i v 0) (seq 0 (length v)));
    [|apply map_nth_seq].
  apply map_ext_in. intros i Hi. apply in_seq in Hi.
  rewrite dot_indicator_in by (auto; lia).
  rewrite Nat.sub_0_r. reflexivity.
Qed.

Lemma rank_one_update_square (n : nat) (C : matrix) (s : vec) :
  is_square n C -> length s = n -> is_square n (rank_one_update C s).
Proof.
  intros HC Hs. apply madd_square; [exact HC|]. subst n. apply outer_square.
Qed.





(** ** From the covariance to the sampled points *)

Lemma column_length (Q : matrix) (k : nat) : length (column Q k) = length Q.
Proof. apply length_map. Qed.

Lemma eigenvalue_is_quadratic_form (C : matrix) (e : vec) (Q : matrix) (k : nat) :
  eigenpairs C e Q -> (k < length e)%nat ->
  quadratic_form C (column Q k) = nth k e 0.
Proof.
  intros Heig Hk. destruct (Heig k Hk) as [Hq Hunit].
  unfold quadratic_form. rewrite Hq, dot_comm, dot_vscale_l, Hunit. lra.
Qed.

Lemma eigenvalues_bounded_below (n : nat) (C : matrix) (e : vec) (Q : matrix) (b : R) :
  (forall v, length v = n -> b * dot v v <= quadratic_form C v) ->
  length Q = n -> eigenpairs C e Q ->
  Forall (fun ev => b <= ev) e.
Proof.
  intros Hb HQ Heig. apply Forall_forall. intros ev Hev.
  apply (In_nth _ _ 0) in Hev. destruct Hev as [k [Hk <-]].
  rewrite <- (eigenvalue_is_quadratic_form C e Q k Heig Hk).
  destruct (Heig k Hk) as [_ Hunit].
  specialize (Hb (column Q k)). rewrite Hunit in Hb.
  rewrite column_length in Hb. specialize (Hb HQ). lra.
Qed.

Lemma matvec_mul_diag (Q : matrix) (d z : vec) :
  matvec (mul_diag Q d) z = matvec Q (vmul d z).
Proof.
  unfold matvec, mul_diag. rewrite map_map.
  apply map_ext. intros row. symmetry. apply dot_vmul_assoc.
Qed.

(** X16: when the covariance is positive semi-definite and [np.linalg.eig]
    returns its eigenvalues with unit eigenvectors (the columns of [Q]), no
    eigenvalue is negative and the cell returns finite points,
    [x + Q (sqrt(e) * z)] for each draw [z]: no NaN arises. *)
Theorem sample_finite_on_psd :
  forall (np_linalg_eig : matrix -> option (vec * matrix))
         (n : nat) (x : vec) (C N : matrix) (e : vec) (Q : matrix),
    psd n C ->
    np_linalg_eig C = Some (e, Q) -> length Q = n -> eigenpairs C e Q ->
    Forall (fun ev => 0 <= ev) e /\
    sample np_linalg_eig x C N =
    Returned (population x N,
              map (fun z => map Some (vadd x (matvec Q (vmul (map sqrt e) z)))) N).
Proof.
  intros eig n x C N e Q Hpsd Heig HQ Hpairs.
  assert (He : Forall (fun ev => 0 <= ev) e).
  { apply (eigenvalues_bounded_below n C e Q 0); try assumption.
    intros v Hv. specialize (Hpsd v Hv). lra. }
  split; [exact He|].
  rewrite (sample_psd eig x C N e Q Heig He). unfold population.
  do 2 f_equal. apply map_ext. intros z. rewrite matvec_mul_diag. reflexivity.
Qed.

Lemma diag_4_9_psd : psd 2 [[4; 0]; [0; 9]].
Proof.
  intros [|a [|b [|c v]]] Hv; try discriminate.
  unfold quadratic_form, matvec, dot, vmul, sum. simpl. nra.
Qed.

Lemma diag_4_9_eigenpairs : eigenpairs [[4; 0]; [0; 9]] [4; 9] (eye 2).
Proof.
  intros [|[|k]] Hk; simpl in Hk; try lia;
    unfold column, matvec, vscale, dot, vmul, sum, eye; split; array_eq.
Qed.

Lemma sample_finite_on_psd_witness :
  Forall (fun ev => 0 <= ev) [4; 9] /\
  sample eig_diagonal [1; 1] [[4; 0]; [0; 9]] [[1; 2]] =
  Returned (population [1; 1] [[1; 2]],
            map (fun z => map Some (vadd [1; 1] (matvec (eye 2) (vmul (map sqrt [4; 9]) z))))
                [[1; 2]]).
Proof.
  apply (sample_finite_on_psd eig_diagonal 2 [1; 1] [[4; 0]; [0; 9]] [[1; 2]] [4; 9] (eye 2)).
  - exact diag_4_9_psd.
  - reflexivity.
  - reflexivity.
  - exact diag_4_9_eigenpairs.
Defined.




(** ** One generation with [mu = 1] on the Himmelblau objective *)

(** X18: with [mu = 1], after [x_t = x + N], [fits = himmelblau(x_t[:, 0],
    x_t[:, 1])], the rank-weighted step and [x = x + s], the new [x] is one
    of the sampled points and no sampled point has a lower Himmelblau value. *)
Theorem best_member_becomes_mean :
  forall (np_argsort : ArgSort) (x : vec) (N : matrix),
    (1 <= length N)%nat ->
    Forall (fun row => length row = ncols N) N ->
    In (update_mean x (select_and_weight np_argsort 1 N (evaluate (population x N))))
       (population x N) /\
    forall p, In p (population x N) ->
      himmelblau_at
        (update_mean x (select_and_weight np_argsort 1 N (evaluate (population x N))))
      <= himmelblau_at p.
Proof.
  intros A x N Hlam HN.
  assert (Hlen : length N = length (evaluate (population x N)))
    by (unfold evaluate, population; rewrite !length_map; reflexivity).
  destruct (select_and_weight_best A N (evaluate (population x N)) x)
    as [best [Hbest [Hmin [_ Hx]]]]; [lia | exact Hlen | exact HN |].
  rewrite Hx. rewrite <- Hlen in Hbest, Hmin.
  assert (Hkey : forall j, (j < length N)%nat ->
            key (evaluate (population x N)) j =
            himmelblau_at (nth j (population x N) [])).
  { intros j Hj. unfold key, evaluate.
    rewrite (nth_map_in_range _ _ j [])
      by (unfold population; rewrite length_map; exact Hj).
    reflexivity. }
  split.
  - apply nth_In. unfold population. rewrite length_map. exact Hbest.
  - intros p Hp. apply (In_nth _ _ []) in Hp. destruct Hp as [j [Hj <-]].
    unfold population in Hj. rewrite length_map in Hj.
    rewrite <- !Hkey by assumption. apply Hmin. exact Hj.
Qed.

Lemma best_member_becomes_mean_witness :
  In (update_mean [0; 0]
        (select_and_weight stable_argsort 1 [[1; 1]; [3; 2]]
           (evaluate (population [0; 0] [[1; 1]; [3; 2]]))))
     (population [0; 0] [[1; 1]; [3; 2]]).
Proof.
  destruct (best_member_becomes_mean stable_argsort [0; 0] [[1; 1]; [3; 2]])
    as [H _].
  - simpl. lia.
  - repeat constructor.
  - exact H.
Defined.

(** ** Sampling with the identity covariance *)

Lemma vmul_ones (z : vec) : vmul (repeat 1 (length z)) z = z.
Proof.
  unfold vmul. induction z as [|a z IH]; simpl; [reflexivity|].
  rewrite IH. f_equal. lra.
Qed.

(** X19: with the initial covariance [np.eye(n)], for which [np.linalg.eig]
    returns the eigenvalues 1 and the identity as eigenvectors, the
    transformed points [x_C] are the plain points [x_N = x + N], for draws of
    dimension [n]. *)
Theorem sample_identity_covariance :
  forall (np_linalg_eig : matrix -> option (vec * matrix))
         (n : nat) (x : vec) (N : matrix),
    np_linalg_eig (eye n) = Some (repeat 1 n, eye n) ->
    Forall (fun z => length z = n) N ->
    sample np_linalg_eig x (eye n) N =
    Returned (population x N, map (map Some) (population x N)).
Proof.
  intros eig n x N Heig HN.
  assert (He : Forall (fun ev => 0 <= ev) (repeat 1 n)).
  { apply Forall_forall. intros ev Hev. apply repeat_spec in Hev. lra. }
  rewrite (sample_psd eig x (eye n) N _ _ Heig He). unfold population.
  do 2 f_equal. rewrite map_map. apply map_ext_in. intros z Hz.
  rewrite Forall_forall in HN. specialize (HN z Hz). subst n.
  rewrite matvec_mul_diag, map_repeat, sqrt_1, vmul_ones, matvec_eye.
  reflexivity.
Qed.

Lemma sample_identity_covariance_witness :
  sample eig_diagonal [1; 2] (eye 2) [[3; 4]; [5; 6]] =
  Returned (population [1; 2] [[3; 4]; [5; 6]],
            map (map Some) (population [1; 2] [[3; 4]; [5; 6]])).
Proof.
  apply (sample_identity_covariance eig_diagonal 2 [1; 2] [[3; 4]; [5; 6]]).
  - reflexivity.
  - repeat constructor.
Defined.

(** ** The sampling transform reproduces the covariance *)

(** [isum n f] is the sum of [f k] over [k < n]. *)
Definition isum (n : nat) (f : nat -> R) : R := sum (map f (seq 0 n)).

Lemma sum_map_plus {A : Type} (f g : A -> R) (l : list A) :
  sum (map (fun a => f a + g a) l) = sum (map f l) + sum (map g l).
Proof.
  unfold sum. induction l as [|a l IH]; simpl; [lra|]. rewrite IH. lra.
Qed.

Lemma sum_map_zero {B : Type} (l : list B) : sum (map (fun _ => 0) l) = 0.
Proof.
  unfold sum. induction l as [|b l IH]; simpl; [reflexivity|]. rewrite IH. lra.
Qed.

Lemma sum_map_exchange {A B : Type} (f : A -> B -> R) (l1 : list A) (l2 : list B) :
  sum (map (fun a => sum (map (f a) l2)) l1) =
  sum (map (fun b => sum (map (fun a => f a b) l1)) l2).
Proof.
  induction l1 as [|a l1 IH].
  - change (0 = sum (map (fun _ : B => 0) l2)). symmetry. apply sum_map_zero.
  - change (sum (map (f a) l2) + sum (map (fun a0 => sum (map (f a0) l2)) l1) =
            sum (map (fun b => f a b + sum (map (fun a0 => f a0 b) l1)) l2)).
    rewrite IH. symmetry.
    apply (sum_map_plus (f a) (fun b => sum (map (fun a0 => f a0 b) l1))).
Qed.

Lemma isum_ext (n : nat) (f g : nat -> R) :
  (forall k, (k < n)%nat -> f k = g k) -> isum n f = isum n g.
Proof.
  intros H. unfold isum. f_equal. apply map_ext_in. intros k Hk.
  apply in_seq in Hk. apply H. lia.
Qed.

Lemma isum_exchange (n m : nat) (f : nat -> nat -> R) :
  isum n (fun k => isum m (fun j => f k j)) = isum m (fun j => isum n (fun k => f k j)).
Proof. unfold isum. apply sum_map_exchange. Qed.

Lemma isum_scale_l (n : nat) (c : R) (f : nat -> R) :
  isum n (fun k => c * f k) = c * isum n f.
Proof. unfold isum. apply sum_map_scale. Qed.

Lemma isum_scale_r (n : nat) (c : R) (f : nat -> R) :
  isum n (fun k => f k * c) = isum n f * c.
Proof.
  rewrite (isum_ext n _ (fun k => c * f k)) by (intros; ring).
  rewrite isum_scale_l. ring.
Qed.

Lemma dot_isum (u v : vec) (n : nat) :
  length u = n -> length v = n ->
  dot u v = isum n (fun k => nth k u 0 * nth k v 0).
Proof.
  unfold isum. revert v n.
  induction u as [|a u IH]; intros [|b v] n Hu Hv; simpl in *; subst n;
    try discriminate; [reflexivity|].
  cbn [seq map]. rewrite <- seq_shift, map_map.
  unfold dot, vmul, sum in *. cbn [zip_with fold_right].
  rewrite (IH v (length u)) by (auto; lia). reflexivity.
Qed.

Lemma isum_delta (n j : nat) (a : nat -> R) :
  (j < n)%nat ->
  isum n (fun m => a m * (if Nat.eqb m j then 1 else 0)) = a j.
Proof.
  intros Hj. unfold isum.
  assert (H : forall len s,
             sum (map (fun m => a m * (if Nat.eqb m j then 1 else 0)) (seq s len)) =
             if andb (Nat.leb s j) (Nat.ltb j (s + len)) then a j else 0).
  { induction len as [|len IH]; intros s.
    - cbn [seq map]. unfold sum. cbn [fold_right].
      destruct (Nat.leb_spec s j), (Nat.ltb_spec j (s + 0)); simpl; try reflexivity; lia.
    - cbn [seq map]. unfold sum in *. cbn [fold_right]. rewrite IH.
      destruct (Nat.eqb_spec s j) as [->|Hne].
      + destruct (Nat.leb_spec (S j) j); [lia|].
        destruct (Nat.leb_spec j j); [|lia].
        destruct (Nat.ltb_spec j (j + S len)); [|lia]. simpl. lra.
      + destruct (Nat.leb_spec (S s) j), (Nat.leb_spec s j),
          (Nat.ltb_spec j (S s + len)), (Nat.ltb_spec j (s + S len));
          simpl; try lra; lia. }
  rewrite H. destruct (Nat.leb_spec 0 j); [|lia].
  destruct (Nat.ltb_spec j (0 + n)); [reflexivity | lia].
Qed.

Lemma nth_mmul_T (A B : matrix) (i j : nat) :
  (i < length A)%nat -> (j < length B)%nat ->
  get (mmul_T A B) i j = dot (nth i A []) (nth j B []).
Proof.
  intros Hi Hj. unfold get, mmul_T.
  rewrite (nth_map_in_range _ A i ([] : vec)) by exact Hi.
  rewrite (nth_map_in_range _ B j ([] : vec)) by exact Hj. reflexivity.
Qed.

Lemma mmul_T_square (n : nat) (A B : matrix) :
  length A = n -> length B = n -> is_square n (mmul_T A B).
Proof.
  intros HA HB. unfold mmul_T. split.
  - rewrite length_map. exact HA.
  - rewrite Forall_map. apply Forall_forall. intros ra _.
    rewrite length_map. exact HB.
Qed.

Lemma square_ext (n : nat) (A B : matrix) :
  is_square n A -> is_square n B ->
  (forall i j, (i < n)%nat -> (j < n)%nat -> get A i j = get B i j) ->
  A = B.
Proof.
  intros HA HB H.
  pose proof (square_row n A) as HrA. pose proof (square_row n B) as HrB.
  specialize (HrA) with (1 := HA). specialize (HrB) with (1 := HB).
  destruct HA as [HA _], HB as [HB _]. unfold matrix, vec in *.
  apply (nth_ext _ _ [] []); [lia|].
  intros i Hi. assert (Hi' : (i < n)%nat) by lia.
  apply (nth_ext _ _ 0 0).
  - rewrite HrA, HrB by exact Hi'. reflexivity.
  - intros j Hj. rewrite HrA in Hj by exact Hi'.
    apply (H i j); assumption.
Qed.

Lemma eigen_entry (n : nat) (C : matrix) (e : vec) (Q : matrix) (i k : nat) :
  is_square n C -> is_square n Q -> length e = n -> eigenpairs C e Q ->
  (i < n)%nat -> (k < n)%nat ->
  nth k e 0 * get Q i k = isum n (fun m => get C i m * get Q m k).
Proof.
  intros HC HQ He Hpairs Hi Hk.
  assert (HQlen : length Q = n) by (destruct HQ; assumption).
  assert (HClen : length C = n) by (destruct HC; assumption).
  destruct (Hpairs k) as [Hq _]; [rewrite He; exact Hk|].
  assert (Hcol : forall m, (m < n)%nat -> nth m (column Q k) 0 = get Q m k).
  { intros m Hm. unfold column, get.
    apply (nth_map_in_range (fun row : vec => nth k row 0) Q m ([] : vec) 0).
    rewrite HQlen. exact Hm. }
  rewrite <- (Hcol i Hi), <- nth_vscale, <- Hq.
  unfold matvec.
  rewrite (nth_map_in_range (fun row : vec => dot row (column Q k)) C i ([] : vec) 0)
    by (rewrite HClen; exact Hi).
  rewrite (dot_isum _ _ n);
    [| apply square_row; assumption | rewrite column_length; exact HQlen].
  apply isum_ext. intros m Hm. rewrite (Hcol m Hm). reflexivity.
Qed.

(** From exact eigenpairs and orthonormal eigenvectors, [C = Q diag(e) Q^T]. *)
Lemma eigen_reconstruct (n : nat) (C : matrix) (e : vec) (Q : matrix) :
  is_square n C -> is_square n Q -> length e = n ->
  eigenpairs C e Q -> mmul_T Q Q = eye n ->
  mmul_T (mul_diag Q e) Q = C.
Proof.
  intros HC HQ He Hpairs Horth.
  assert (HQlen : length Q = n) by (destruct HQ; assumption).
  assert (HDlen : length (mul_diag Q e) = n)
    by (unfold mul_diag; rewrite length_map; exact HQlen).
  apply (square_ext n).
  - apply mmul_T_square; assumption.
  - exact HC.
  - intros i j Hi Hj.
    rewrite nth_mmul_T by (rewrite ?HDlen, ?HQlen; assumption).
    unfold mul_diag.
    rewrite (nth_map_in_range (fun row : vec => vmul row e) Q i ([] : vec) ([] : vec))
      by (rewrite HQlen; exact Hi).
    assert (Hri : length (nth i Q []) = n) by (apply square_row; assumption).
    assert (Hrj : length (nth j Q []) = n) by (apply square_row; assumption).
    rewrite (dot_isum _ _ n);
      [| unfold vmul; rewrite zip_with_length, Hri, He; apply Nat.min_id | exact Hrj].
    rewrite (isum_ext n _
               (fun k => isum n (fun m => get C i m * get Q m k * get Q j k))).
    + rewrite isum_exchange.
      rewrite (isum_ext n _
                 (fun m => get C i m * (if Nat.eqb m j then 1 else 0))).
      * apply isum_delta. exact Hj.
      * intros m Hm.
        rewrite (isum_ext n _ (fun k => get C i m * (get Q m k * get Q j k)))
          by (intros; ring).
        rewrite isum_scale_l. f_equal.
        assert (Hrm : length (nth m Q []) = n) by (apply square_row; assumption).
        change (isum n (fun k => nth k (nth m Q []) 0 * nth k (nth j Q []) 0) =
                (if Nat.eqb m j then 1 else 0)).
        rewrite <- (dot_isum (nth m Q []) (nth j Q []) n) by assumption.
        rewrite <- nth_mmul_T by (rewrite HQlen; assumption).
        rewrite Horth. apply get_eye; assumption.
    + intros k Hk.
      unfold vmul. rewrite (nth_zip_with Rmult _ _ k 0 0 0) by (rewrite ?Hri, ?He; exact Hk).
      change (nth k (nth i Q []) 0) with (get Q i k).
      change (nth k (nth j Q []) 0) with (get Q j k).
      replace (get Q i k * nth k e 0 * get Q j k) with (nth k e 0 * get Q i k * get Q j k)
        by ring.
      rewrite (eigen_entry n C e Q i k) by assumption.
      rewrite <- isum_scale_r. reflexivity.
Qed.

(** C4: for a symmetric positive semi-definite [n x n] covariance [C] of
    which [np.linalg.eig] returns exact eigenpairs ([C v_k = e_k v_k], unit
    [v_k]) with orthonormal eigenvectors ([Q Q^T = I]), no eigenvalue is
    negative, the cell computes for each draw [z] the finite point
    [x + Q (sqrt(e) * z)], that is [x + M z] with [M = Q diag(sqrt(e))], and
    [M M^T = C]: the points have mean [x] and covariance [C] when the draws
    are standard normal. *)
Theorem sample_transform_covariance :
  forall (np_linalg_eig : matrix -> option (vec * matrix))
         (n : nat) (x : vec) (C N : matrix) (e : vec) (Q : matrix),
    symmetric n C -> psd n C ->
    np_linalg_eig C = Some (e, Q) ->
    length e = n -> is_square n Q ->
    eigenpairs C e Q -> mmul_T Q Q = eye n ->
    Forall (fun ev => 0 <= ev) e /\
    sample np_linalg_eig x C N =
    Returned (map (vadd x) N,
              map (fun z => map Some (vadd x (matvec Q (vmul (map sqrt e) z)))) N) /\
    (forall z, matvec Q (vmul (map sqrt e) z) = matvec (mul_diag Q (map sqrt e)) z) /\
    mmul_T (mul_diag Q (map sqrt e)) (mul_diag Q (map sqrt e)) = C.
Proof.
  intros eig n x C N e Q [HC _] Hpsd Heig He HQ Hpairs Horth.
  assert (Hnonneg : Forall (fun ev => 0 <= ev) e).
  { apply (eigenvalues_bounded_below n C e Q 0).
    - intros v Hv. specialize (Hpsd v Hv). lra.
    - destruct HQ; assumption.
    - exact Hpairs. }
  split; [exact Hnonneg|]. split; [|split].
  - rewrite (sample_psd eig x C N e Q Heig Hnonneg).
    do 2 f_equal. apply map_ext. intros z. rewrite matvec_mul_diag. reflexivity.
  - intros z. symmetry. apply matvec_mul_diag.
  - rewrite mmul_T_sqrt by exact Hnonneg.
    apply (eigen_reconstruct n); assumption.
Qed.

(** The exact eigen-decomposition of [[[41, -12], [-12, 34]]]: eigenvalues
    25 and 50 with the eigenvectors [(3/5, 4/5)] and [(-4/5, 3/5)]. *)
Definition eig_41_34 (C : matrix) : option (vec * matrix) :=
  Some ([25; 50], [[3 / 5; - 4 / 5]; [4 / 5; 3 / 5]]).

Lemma sample_transform_covariance_witness :
  Forall (fun ev => 0 <= ev) [25; 50] /\
  sample eig_41_34 [1; 1] [[41; -12]; [-12; 34]] [[1; 2]] =
  Returned (map (vadd [1; 1]) [[1; 2]],
            map (fun z => map Some
                   (vadd [1; 1]
                      (matvec [[3 / 5; - 4 / 5]; [4 / 5; 3 / 5]]
                         (vmul (map sqrt [25; 50]) z))))
                [[1; 2]]) /\
  (forall z, matvec [[3 / 5; - 4 / 5]; [4 / 5; 3 / 5]] (vmul (map sqrt [25; 50]) z) =
             matvec (mul_diag [[3 / 5; - 4 / 5]; [4 / 5; 3 / 5]] (map sqrt [25; 50])) z) /\
  mmul_T (mul_diag [[3 / 5; - 4 / 5]; [4 / 5; 3 / 5]] (map sqrt [25; 50]))
         (mul_diag [[3 / 5; - 4 / 5]; [4 / 5; 3 / 5]] (map sqrt [25; 50])) =
  [[41; -12]; [-12; 34]].
Proof.
  apply (sample_transform_covariance eig_41_34 2 [1; 1] [[41; -12]; [-12; 34]] [[1; 2]]
           [25; 50] [[3 / 5; - 4 / 5]; [4 / 5; 3 / 5]]).
  - split; [split; [reflexivity | repeat constructor]|].
    intros [|[|i]] [|[|j]] Hi Hj; try lia; reflexivity.
  - intros [|a [|b [|c v]]] Hv; try discriminate.
    unfold quadratic_form, matvec, dot, vmul, sum. simpl.
    pose proof (pow2_ge_0 (3 * a + 4 * b)). pose proof (pow2_ge_0 (4 * a - 3 * b)). nra.
  - reflexivity.
  - reflexivity.
  - split; [reflexivity | repeat constructor].
  - intros [|[|k]] Hk; simpl in Hk; try lia;
      unfold column, matvec, vscale, dot, vmul, sum; split; array_eq.
  - unfold mmul_T, dot, vmul, sum, eye. array_eq.
Defined.

(** What [np.linalg.eig] computes in float64 on the singular covariance
    [[[16, 12], [12, 9]]] (exact eigenvalues 25 and 0): the zero eigenvalue
    comes out just below zero, [-2^-49].  The other eigenvalue and the
    eigenvectors are written exactly; the points do not depend on them. *)
Definition eig_16_9_float64 (C : matrix) : option (vec * matrix) :=
  Some ([25; - / 2 ^ 49], [[4 / 5; - 3 / 5]; [3 / 5; 4 / 5]]).

(** C4, as stated, fails on the positive semi-definite covariance
    [[[16, 12], [12, 9]]]: whenever the eigenvalues [np.linalg.eig] returns
    for it contain a negative one, as they do in float64, every coordinate of
    every point is NaN, not [x + Q (sqrt(e) * z)]. *)
Lemma sample_singular_psd_counterexample :
  symmetric 2 [[16; 12]; [12; 9]] /\
  psd 2 [[16; 12]; [12; 9]] /\
  (forall (np_linalg_eig : matrix -> option (vec * matrix))
          (x : vec) (N : matrix) (e : vec) (Q : matrix),
     np_linalg_eig [[16; 12]; [12; 9]] = Some (e, Q) ->
     Exists (fun ev => ev < 0) e ->
     Forall (fun row => length row = length e) Q ->
     Forall (fun z => length z = length e) N ->
     exists x_C,
       sample np_linalg_eig x [[16; 12]; [12; 9]] N = Returned (map (vadd x) N, x_C) /\
       all_nan x_C) /\
  sample eig_16_9_float64 [0; 0] [[16; 12]; [12; 9]] [[1; 1]] =
  Returned ([[1; 1]], [[None; None]]) /\
  sample eig_16_9_float64 [0; 0] [[16; 12]; [12; 9]] [[1; 1]] <>
  Returned (map (vadd [0; 0]) [[1; 1]],
            map (fun z => map Some
                   (vadd [0; 0]
                      (matvec [[4 / 5; - 3 / 5]; [3 / 5; 4 / 5]]
                         (vmul (map sqrt [25; - / 2 ^ 49]) z))))
                [[1; 1]]).
Proof.
  assert (Hneg : - / 2 ^ 49 < 0).
  { assert (0 < / 2 ^ 49) by (apply Rinv_0_lt_compat, pow_lt; lra). lra. }
  assert (Hrun : sample eig_16_9_float64 [0; 0] [[16; 12]; [12; 9]] [[1; 1]] =
                 Returned ([[1; 1]], [[None; None]])).
  { unfold sample, eig_16_9_float64, transform, fdot.
    cbn [map zip_with fold_right].
    rewrite (np_sqrt_negative _ Hneg). rewrite (np_sqrt_nonneg 25) by lra.
    cbn. do 2 f_equal. unfold vadd. array_eq. }
  split; [|split; [|split; [|split]]].
  - split; [split; [reflexivity | repeat constructor]|].
    intros [|[|i]] [|[|j]] Hi Hj; try lia; reflexivity.
  - intros [|a [|b [|c v]]] Hv; try discriminate.
    unfold quadratic_form, matvec, dot, vmul, sum. simpl.
    pose proof (pow2_ge_0 (4 * a + 3 * b)). nra.
  - intros eig x N e Q Heig Hex HQ HN. eexists.
    split; [unfold sample; rewrite Heig; reflexivity|].
    unfold all_nan. rewrite Forall_map.
    eapply Forall_impl; [|exact HN]. intros z Hz. simpl.
    apply zip_fadd_nan, transform_nan; assumption.
  - exact Hrun.
  - rewrite Hrun. intros E. injection E as _ E. discriminate.
Qed.
